(** * SOL application composer: [sol/opt/composer.pyx]

    A shallow embedding of [compose_apps] and the properties of the
    composition algorithm.

    [compose_apps] is an orchestration routine: it reads the application
    objects, builds a few local containers and drives the model builder
    ([OptimizationGurobi]) through a sequence of method calls.  The
    embedding is therefore a small state-and-exception monad over

    - a store of the mutable Python objects that can be reached from the
      applications (path sets, resource-cost tables, keyword-option
      dictionaries), addressed by reference, and
    - the trace of the calls made on the model builder, each call recorded
      with the values of its arguments at the time of the call.

    Numbers are exact rationals ([Qc]); the rounding of IEEE doubles is not
    modelled (the quotients by a zero total, which numpy answers with
    [inf] and [nan], are). *)

From Stdlib Require Import QArith Qcanon.
From stdpp Require Import numbers gmap strings list fin_maps.

Local Open Scope string_scope.
Local Open Scope list_scope.

(** ** Data model *)

(** References to Python objects. *)
Abbreviation loc := positive (only parsing).

(** Traffic classes and paths are identified by numbers and node sequences. *)
Abbreviation traffic_class := nat (only parsing).
Abbreviation path := (list nat) (only parsing).

(** [sol.path.paths.PPTC]: paths per traffic class. *)
Abbreviation PPTC := (gmap nat (gset (list nat))) (only parsing).

(** The ownership domain of a resource.  [NODES] and [LINKS] are the two
    constants of [sol.utils.const] the composer compares with; any other
    Python value is an [OtherOwner]. *)
Inductive owner :=
| NODES
| LINKS
| OtherOwner (tag : string).

#[global] Instance owner_eq_dec : EqDecision owner.
Proof. solve_decision. Defined.

(** A cost function is an opaque callable. *)
Inductive costfn := CostFn (id : nat).

#[global] Instance costfn_eq_dec : EqDecision costfn.
Proof. solve_decision. Defined.

(** Values that occur as objective arguments and keyword options. *)
Inductive pyval :=
| PyNone
| PyInt (z : Z)
| PyStr (s : string)
| PyTcs (tcs : list traffic_class).

#[global] Instance pyval_eq_dec : EqDecision pyval.
Proof. solve_decision. Defined.

(** [app.resource_cost]: resource name -> (cost function, owner). *)
Abbreviation rcost_table := (gmap string (costfn * owner)) (only parsing).

(** Keyword options of an objective. *)
Abbreviation kwargs_dict := (gmap string pyval) (only parsing).

(** An application object.  Its three containers are references into the
    store; [obj] is the tuple [(kind, args, kwargs)]. *)
Record App := {
  name : string;
  pptc : loc;
  resource_cost : loc;
  obj : string * list pyval * loc;
  obj_tc : list traffic_class;
  volume : Qc;
}.

(** Nodes and links of a topology; the keys of a capacity map. *)
Inductive element :=
| Node (n : nat)
| Link (u v : nat).

#[global] Instance element_eq_dec : EqDecision element.
Proof. solve_decision. Defined.

#[global] Instance element_countable : Countable element.
Proof.
  refine (inj_countable'
            (λ e, match e with Node n => inl n | Link u v => inr (u, v) end)
            (λ s, match s with inl n => Node n | inr (u, v) => Link u v end) _).
  by intros [].
Defined.

(** [sol.topology.topologynx.Topology], as far as the composer uses it. *)
Record Topology := {
  nodes : list nat;
  links : list (nat * nat);
  get_resources : element → gmap string Qc;
}.

(** Modelled from the spec: the caps object returned by
    [network_config.get_caps()], whose class is not part of the sources.
    The spec describes it as a caps table "exposing .resources() and
    .caps(resource_name)": a table from resource names to cap values;
    [resources()] enumerates its names, [caps(r)] reads the entry of [r]. *)
Record NetworkCaps := {
  caps_table : gmap string (gmap element Qc);
}.

(** Modelled from the spec: the network configuration object;
    [get_caps()] answers [None] or a caps object. *)
Record NetworkConfig := {
  get_caps : option NetworkCaps;
}.

(** [EpochComposition] and [Fairness] of [sol.utils.const]; only the two
    defaults are named by the composer. *)
Inductive EpochComposition :=
| AVG
| OtherEpochComposition (tag : string).

Inductive Fairness :=
| WEIGHTED
| OtherFairness (tag : string).

(** A double: a finite value or one of the three special values. *)
Inductive pyfloat :=
| Finite (q : Qc)
| PosInf
| NegInf
| NaN.

(** The [weights] argument once it is not [None]: a number or a numpy
    array of numbers. *)
Inductive pyweights :=
| Scalar (w : pyfloat)
| NDArray (ws : list pyfloat).

(** The per-epoch objective expressions returned by the model builder are
    opaque handles. *)
Abbreviation epoch_objs := (list nat) (only parsing).

(** ** Calls on the model builder *)

Inductive event :=
| EvInit (topo_nodes : list nat) (topo_links : list (nat * nat))
         (all_pptc : PPTC)
| EvConsume (all_pptc : PPTC) (r : string)
            (cost_funcs : list costfn) (capacities : gmap element Qc)
            (mode : owner)
| EvCap (r : string) (caps : gmap element Qc)
        (tcs : option (list traffic_class))
| EvNamedConstraints (app : App)
| EvSingleObjective (kind : string) (args : list pyval)
                    (kwargs : kwargs_dict)
| EvComposeObjectives (objs : list epoch_objs) (epoch_mode : EpochComposition)
                      (fairness : Fairness) (weights : pyweights).

(** ** Exceptions *)

(** [ERR_UNKNOWN_MODE] is a format string of [sol.utils.const] with two
    places; a message is that template applied to its two arguments. *)
Inductive message :=
| ERR_UNKNOWN_MODE (what : string) (mode : owner).

Inductive exn :=
| AssertionError
| ValueError
| InvalidConfigException (msg : message).

(** ** Store, state and the monad *)

Record state := {
  st_pptc : gmap loc (PPTC);
  st_rcost : gmap loc (rcost_table);
  st_dict : gmap loc (kwargs_dict);
  trace : list event;
}.

Inductive result (A : Type) :=
| Ok (a : A)
| Raise (e : exn).
Arguments Ok {A} a.
Arguments Raise {A} e.

(** Expressions that can raise but do not touch the state. *)
#[global] Instance result_ret : MRet result := λ A a, Ok a.

#[global] Instance result_bind : MBind result := λ A B k r,
  match r with
  | Ok a => k a
  | Raise e => Raise e
  end.

(** Statements: they can raise, and they read and write the state. *)
Definition M (A : Type) : Type := state → result A * state.

#[global] Instance M_ret : MRet M := λ A a σ, (Ok a, σ).

#[global] Instance M_bind : MBind M := λ A B k m σ,
  match m σ with
  | (Ok a, σ') => k a σ'
  | (Raise e, σ') => (Raise e, σ')
  end.

Definition raise {A} (e : exn) : M A := λ σ, (Raise e, σ).

Definition lift {A} (r : result A) : M A := λ σ, (r, σ).

Definition get : M state := λ σ, (Ok σ, σ).

(** [for x in l: body(x)] *)
Fixpoint for_each {A} (l : list A) (body : A → M unit) : M unit :=
  match l with
  | [] => mret tt
  | x :: l' => body x ;; for_each l' body
  end.

(** [assert b] *)
Definition assert (b : bool) : M unit :=
  if b then mret tt else raise AssertionError.

(** Replacing one component of the state. *)
Definition with_pptc (σ : state) (h : gmap loc (PPTC))
  : state :=
  {| st_pptc := h; st_rcost := st_rcost σ; st_dict := st_dict σ;
     trace := trace σ |}.

Definition with_dict (σ : state) (h : gmap loc (kwargs_dict)) : state :=
  {| st_pptc := st_pptc σ; st_rcost := st_rcost σ; st_dict := h;
     trace := trace σ |}.

Definition with_trace (σ : state) (tr : list event) : state :=
  {| st_pptc := st_pptc σ; st_rcost := st_rcost σ; st_dict := st_dict σ;
     trace := tr |}.

(** A call on the model builder is appended to the trace. *)
Definition emit (e : event) : M unit :=
  λ σ, (Ok tt, with_trace σ (trace σ ++ [e])).

(** Reading a container through a reference.  Every reference a Python
    program holds is allocated; an unallocated one reads as empty. *)
Definition read_pptc (σ : state) (l : loc) : PPTC :=
  default ∅ (st_pptc σ !! l).

Definition read_rcost (σ : state) (l : loc) : rcost_table :=
  default ∅ (st_rcost σ !! l).

Definition read_dict (σ : state) (l : loc) : kwargs_dict :=
  default ∅ (st_dict σ !! l).

Definition write_pptc (l : loc) (p : PPTC) : M unit :=
  λ σ, (Ok tt, with_pptc σ (<[l := p]> (st_pptc σ))).

Definition write_dict (l : loc) (d : kwargs_dict) : M unit :=
  λ σ, (Ok tt, with_dict σ (<[l := d]> (st_dict σ))).

(** ** Collaborators *)

(** Modelled from the spec: [PPTC()] and [PPTC.update] of
    [sol.path.paths], which are not part of the sources.  The spec gives
    their contract: an empty path set is created fresh, and "merging two
    applications' sets for the same traffic class is a set union, not a
    replacement". *)
Definition PPTC_new : M loc :=
  λ σ, let l := fresh (dom (st_pptc σ)) in
       (Ok l, with_pptc σ (<[l := ∅]> (st_pptc σ))).

Definition PPTC_merge (self other : PPTC) : PPTC :=
  union_with (λ ps qs, Some (ps ∪ qs)) self other.

Definition PPTC_update (self other : loc) : M unit :=
  σ ← get;
  write_pptc self (PPTC_merge (read_pptc σ self) (read_pptc σ other)).

(** [d.copy()]: a new dictionary with the entries of [d]. *)
Definition dict_copy (d : loc) : M loc :=
  λ σ, let l := fresh (dom (st_dict σ)) in
       (Ok l, with_dict σ (<[l := read_dict σ d]> (st_dict σ))).

(** [d.update(other)]: the entries of [other] are written into [d]. *)
Definition dict_update (d : loc) (other : kwargs_dict) : M unit :=
  σ ← get;
  write_dict d (other ∪ read_dict σ d).

(** The methods of the model builder.  Each call is recorded with the
    contents its arguments have when it is made.  The constructor makes a
    new builder: its history starts with that call. *)
Definition OptimizationGurobi (topo : Topology) (all_pptc : loc) : M unit :=
  λ σ, (Ok tt,
        with_trace σ [EvInit (nodes topo) (links topo) (read_pptc σ all_pptc)]).

Definition opt_consume (all_pptc : loc) (r : string) (cost_funcs : list costfn)
    (capacities : gmap element Qc) (mode : owner) : M unit :=
  σ ← get;
  emit (EvConsume (read_pptc σ all_pptc) r cost_funcs capacities mode).

Definition opt_cap (r : string) (caps : gmap element Qc)
    (tcs : option (list traffic_class)) : M unit :=
  emit (EvCap r caps tcs).

Definition opt_add_named_constraints (app : App) : M unit :=
  emit (EvNamedConstraints app).

Definition opt_compose_objectives (objs : list epoch_objs)
    (epoch_mode : EpochComposition) (fairness : Fairness)
    (weights : pyweights) : M unit :=
  emit (EvComposeObjectives objs epoch_mode fairness weights).

(** ** numpy arithmetic on the volumes *)

(** [x / y] on doubles, the divisor possibly zero. *)
Definition np_div (x y : Qc) : pyfloat :=
  if decide (y = 0)%Qc then
    if decide (x = 0)%Qc then NaN
    else if decide (0 < x)%Qc then PosInf else NegInf
  else Finite (x / y)%Qc.

(** [1 - x] *)
Definition np_one_minus (x : pyfloat) : pyfloat :=
  match x with
  | Finite q => Finite (1 - q)%Qc
  | PosInf => NegInf
  | NegInf => PosInf
  | NaN => NaN
  end.

(** [volumes.sum()] *)
Definition np_sum (xs : list Qc) : Qc := foldr Qcplus 0%Qc xs.

(** [x <= y] on doubles: false as soon as one side is [nan]. *)
Definition np_le (x y : pyfloat) : bool :=
  match x, y with
  | NaN, _ | _, NaN => false
  | NegInf, _ => true
  | _, PosInf => true
  | Finite p, Finite q => bool_decide (p ≤ q)%Qc
  | _, _ => false
  end.

(** The truth value of an array of booleans: that of its element when it
    has one, [False] when it is empty, and a [ValueError] ("truth value of
    an array with more than one element is ambiguous") otherwise. *)
Definition np_truth (bs : list bool) : result bool :=
  match bs with
  | [] => Ok false
  | [b] => Ok b
  | _ => Raise ValueError
  end.

(** [0 <= weights <= 1], that is [(0 <= weights) and (weights <= 1)],
    taken as a condition. *)
Definition weights_in_range (weights : pyweights) : result bool :=
  match weights with
  | Scalar w => Ok (np_le (Finite 0) w && np_le w (Finite 1))
  | NDArray ws =>
      lower ← np_truth ((λ w, np_le (Finite 0) w) <$> ws);
      if lower : bool then np_truth ((λ w, np_le w (Finite 1)) <$> ws)
      else Ok false
  end.

(** ** The composer *)

Section Composer.

(** The order in which Python enumerates a set of names ([for r in rset])
    and the names of the caps table ([caps.resources()]). *)
Variable set_order : gset string → list string.
Variable resources_order : gset string → list string.

(** What [add_single_objective] returns, as a function of the calls the
    model builder has received so far (this one included). *)
Variable single_objective : list event → epoch_objs.

Definition opt_add_single_objective (kind : string) (args : list pyval)
    (kwargs : kwargs_dict) : M epoch_objs :=
  emit (EvSingleObjective kind args kwargs);;
  σ ← get;
  mret (single_objective (trace σ)).

(** [caps.resources()] and [caps.caps(r)] *)
Definition resources (caps : NetworkCaps) : list string :=
  resources_order (dom (caps_table caps)).

Definition caps (c : NetworkCaps) (r : string) : gmap element Qc :=
  default ∅ (caps_table c !! r).

(** [{node: topo.get_resources(node) for node in topo.nodes()}] *)
Definition node_caps (topo : Topology) : gmap element (gmap string Qc) :=
  foldl (λ d n, <[Node n := get_resources topo (Node n)]> d) ∅ (nodes topo).

(** [{link: topo.get_resources(link) for link in topo.links()}] *)
Definition link_caps (topo : Topology) : gmap element (gmap string Qc) :=
  foldl (λ d l, <[Link l.1 l.2 := get_resources topo (Link l.1 l.2)]> d)
        ∅ (links topo).

(** [{e: caps[e][r] for e in caps if r in caps[e]}] *)
Definition capacities_of (elem_caps : gmap element (gmap string Qc))
    (r : string) : gmap element Qc :=
  omap (λ res : gmap string Qc, res !! r) elem_caps.

(** The names collected by
    [rset = set(); for app in apps: rset.update(app.resource_cost.keys())] *)
Definition resource_names (σ : state) (apps : list App) : gset string :=
  foldl (λ rset app, rset ∪ dom (read_rcost σ (resource_cost app))) ∅ apps.

(** [[app.resource_cost[r] for app in apps if r in app.resource_cost]] *)
Definition resource_entries (σ : state) (apps : list App) (r : string)
  : list (costfn * owner) :=
  omap (λ app, read_rcost σ (resource_cost app) !! r) apps.

(** The body of [for r in rset]. *)
Definition consume_resource (apps : list App) (all_pptc : loc)
    (node_caps link_caps : gmap element (gmap string Qc)) (r : string)
  : M unit :=
  σ ← get;
  match resource_entries σ apps r with
  | [] => raise ValueError
  | (entry :: _) as entries =>
      let cost_funcs := entries.*1 in
      let modes := entries.*2 in
      assert (bool_decide (length (remove_dups modes) = 1));;
      let mode := entry.2 in
      capacities ←
        (if bool_decide (mode = NODES) then
           mret (capacities_of node_caps r)
         else if bool_decide (mode = LINKS) then
           mret (capacities_of link_caps r)
         else
           raise (InvalidConfigException
                    (ERR_UNKNOWN_MODE "resource owner" mode)));
      opt_consume all_pptc r cost_funcs capacities mode
  end.

(** [1 - volumes/volumes.sum()] *)
Definition derived_weights (apps : list App) : pyweights :=
  let volumes := volume <$> apps in
  let total := np_sum volumes in
  NDArray ((λ v, np_one_minus (np_div v total)) <$> volumes).

(** The body of the objective loop. *)
Definition add_objective (app : App) : M epoch_objs :=
  kwargs ← dict_copy (obj app).2;
  dict_update kwargs
    (<["tcs" := PyTcs (obj_tc app)]> {["varname" := PyStr (name app)]});;
  σ ← get;
  opt_add_single_objective (obj app).1.1 (obj app).1.2 (read_dict σ kwargs).

Definition compose_apps (apps : list App) (topo : Topology)
    (network_config : option NetworkConfig) (epoch_mode : EpochComposition)
    (fairness : Fairness) (weights : option pyweights) : M unit :=
  (* Merge all paths per traffic class into a single object *)
  all_pptc ← PPTC_new;
  for_each apps (λ app, PPTC_update all_pptc (pptc app));;
  (* Start the optimization *)
  OptimizationGurobi topo all_pptc;;
  (* Extract the capacities from all links and nodes *)
  let node_caps := node_caps topo in
  let link_caps := link_caps topo in
  (* Consume network resources *)
  σ ← get;
  let rset := resource_names σ apps in
  for_each (set_order rset)
    (λ r, consume_resource apps all_pptc node_caps link_caps r);;
  (* Cap the resources, if caps were given *)
  match network_config with
  | Some config =>
      match get_caps config with
      | Some c => for_each (resources c) (λ r, opt_cap r (caps c r) None)
      | None => mret tt
      end
  | None => mret tt
  end;;
  (* And add any other constraints the app might desire *)
  for_each apps (λ app, opt_add_named_constraints app);;
  (* Compute app weights *)
  weights ←
    match weights with
    | None => mret (derived_weights apps)
    | Some w => ok ← lift (weights_in_range w); assert ok;; mret w
    end;
  (* Add objectives *)
  objs ← mapM add_objective apps;
  opt_compose_objectives objs epoch_mode fairness weights.

End Composer.


(** ** Observations on a run *)

(** The paths a path set holds for a traffic class. *)
Definition paths_of (p : PPTC) (tc : traffic_class) : gset path :=
  default ∅ (p !! tc).

(** The path sets of the applications, as they are in the store. *)
Definition app_pptcs (σ : state) (apps : list App) : list PPTC :=
  (λ app, read_pptc σ (pptc app)) <$> apps.

(** The contents [all_pptc] has after the merging loop. *)
Definition merged_pptc (σ : state) (apps : list App) : PPTC :=
  foldl PPTC_merge ∅ (app_pptcs σ apps).

(** What one round of the consumption loop does, given the entries of its
    resource: the call it makes on the model builder, or the exception it
    raises. *)
Definition consume_call (all_pptc : PPTC)
    (node_caps link_caps : gmap element (gmap string Qc)) (r : string)
    (entries : list (costfn * owner)) : result event :=
  match entries with
  | [] => Raise ValueError
  | entry :: _ =>
      if bool_decide (length (remove_dups entries.*2) = 1) then
        if bool_decide (entry.2 = NODES) then
          Ok (EvConsume all_pptc r entries.*1 (capacities_of node_caps r)
                entry.2)
        else if bool_decide (entry.2 = LINKS) then
          Ok (EvConsume all_pptc r entries.*1 (capacities_of link_caps r)
                entry.2)
        else
          Raise (InvalidConfigException
                   (ERR_UNKNOWN_MODE "resource owner" entry.2))
      else Raise AssertionError
  end.

(** The calls made by a loop whose rounds each make one call or raise: the
    calls of the rounds before the first one that raises, and its
    exception. *)
Fixpoint calls_until_raise {A} (round : A → result event) (l : list A)
  : list event * option exn :=
  match l with
  | [] => ([], None)
  | x :: l' =>
      match round x with
      | Ok ev => let '(evs, o) := calls_until_raise round l' in (ev :: evs, o)
      | Raise e => ([], Some e)
      end
  end.

(** The calls of the capping block. *)
Definition cap_calls (resources_order : gset string → list string)
    (network_config : option NetworkConfig) : list event :=
  match network_config with
  | Some config =>
      match get_caps config with
      | Some c =>
          (λ r, EvCap r (caps c r) None) <$> resources resources_order c
      | None => []
      end
  | None => []
  end.

(** The keyword options the objective of an application is added with. *)
Definition objective_kwargs (σ : state) (app : App) : kwargs_dict :=
  <["tcs" := PyTcs (obj_tc app)]> {["varname" := PyStr (name app)]}
  ∪ read_dict σ (obj app).2.

Definition objective_call (σ : state) (app : App) : event :=
  EvSingleObjective (obj app).1.1 (obj app).1.2 (objective_kwargs σ app).

(** The weight vector handed to the final composition step, or the
    exception raised while it is determined. *)
Definition weights_used (apps : list App) (weights : option pyweights)
  : result pyweights :=
  match weights with
  | None => Ok (derived_weights apps)
  | Some w =>
      match weights_in_range w with
      | Ok true => Ok w
      | Ok false => Raise AssertionError
      | Raise e => Raise e
      end
  end.

(** The rows of the objective matrix: what the model builder answers to
    each of [calls], made in turn after the history [tr]. *)
Fixpoint objective_rows (single_objective : list event → epoch_objs)
    (tr : list event) (calls : list event) : list epoch_objs :=
  match calls with
  | [] => []
  | c :: calls' =>
      single_objective (tr ++ [c])
      :: objective_rows single_objective (tr ++ [c]) calls'
  end.

(** The store once the path sets are merged. *)
Definition merged_state (σ : state) (apps : list App) : state :=
  with_pptc σ (<[fresh (dom (st_pptc σ)) := merged_pptc σ apps]> (st_pptc σ)).

(** The calls of the consumption loop and the exception that ends it. *)
Definition consume_calls (set_order : gset string → list string) (σ : state)
    (apps : list App) (topo : Topology) : list event * option exn :=
  calls_until_raise
    (λ r, consume_call (merged_pptc σ apps) (node_caps topo) (link_caps topo)
            r (resource_entries σ apps r))
    (set_order (resource_names σ apps)).

(** An application references a resource when its table has an entry for
    it; [declares] also names the entry. *)
Definition declares (σ : state) (app : App) (r : string) (cf : costfn)
    (mode : owner) : Prop :=
  read_rcost σ (resource_cost app) !! r = Some (cf, mode).

Definition references (σ : state) (app : App) (r : string) : Prop :=
  is_Some (read_rcost σ (resource_cost app) !! r).

(** The cost functions of the applications that reference [r], in input
    order. *)
Definition cost_functions (σ : state) (apps : list App) (r : string)
  : list costfn :=
  omap (λ app, fst <$> read_rcost σ (resource_cost app) !! r) apps.

(** The capacity map of a resource owned by [mode]. *)
Definition capacity_map (topo : Topology) (mode : owner) (r : string)
  : gmap element Qc :=
  match mode with
  | NODES => capacities_of (node_caps topo) r
  | LINKS => capacities_of (link_caps topo) r
  | OtherOwner _ => ∅
  end.

(** Kinds of calls. *)
Inductive call_kind :=
| KInit | KConsume | KCap | KNamedConstraints | KSingleObjective
| KComposeObjectives.

Definition kind_of (e : event) : call_kind :=
  match e with
  | EvInit _ _ _ => KInit
  | EvConsume _ _ _ _ _ => KConsume
  | EvCap _ _ _ => KCap
  | EvNamedConstraints _ => KNamedConstraints
  | EvSingleObjective _ _ _ => KSingleObjective
  | EvComposeObjectives _ _ _ _ => KComposeObjectives
  end.

Definition is_consume_of (r : string) (e : event) : bool :=
  match e with
  | EvConsume _ r' _ _ _ => bool_decide (r' = r)
  | _ => false
  end.

Definition is_cap (e : event) : bool :=
  match e with EvCap _ _ _ => true | _ => false end.

Definition is_cap_of (r : string) (e : event) : bool :=
  match e with
  | EvCap r' _ _ => bool_decide (r' = r)
  | _ => false
  end.

(** An ownership domain the composer recognizes. *)
Definition recognized (mode : owner) : Prop := mode = NODES ∨ mode = LINKS.

(** The calls made up to and including the named constraints. *)
Definition calls_before_weights
    (set_order resources_order : gset string → list string)
    (apps : list App) (topo : Topology)
    (network_config : option NetworkConfig) (σ : state) : list event :=
  EvInit (nodes topo) (links topo) (merged_pptc σ apps)
  :: (consume_calls set_order σ apps topo).1
  ++ cap_calls resources_order network_config
  ++ (EvNamedConstraints <$> apps).

(** ** Scenarios *)

(** Two applications over one topology, as in the end-to-end scenario:
    [A] has volume 10, [B] volume 30; both use the node resource ["bw"];
    they share traffic class 7, with one path in common. *)
Module Scenario.

Definition appA : App :=
  {| name := "A"; pptc := 1%positive; resource_cost := 1%positive;
     obj := ("minlatency", [PyInt 1], 1%positive); obj_tc := [7];
     volume := Qc_of_Z 10 |}.

Definition appB : App :=
  {| name := "B"; pptc := 2%positive; resource_cost := 2%positive;
     obj := ("maxflow", [], 2%positive); obj_tc := [7];
     volume := Qc_of_Z 30 |}.

Definition pathsA : PPTC :=
  {[ 7 := {[ [1; 2; 3]; [1; 4; 3] ]} ]}.

Definition pathsB : PPTC :=
  {[ 7 := {[ [1; 2; 3]; [1; 5; 3] ]} ]}.

(** The store with the given resource-cost tables for [A] and [B]. *)
Definition store_with (costA costB : rcost_table) : state :=
  {| st_pptc := <[1%positive := pathsA]> {[ 2%positive := pathsB ]};
     st_rcost := <[1%positive := costA]> {[ 2%positive := costB ]};
     st_dict := <[1%positive := {[ "k" := PyInt 3 ]}]> {[ 2%positive := ∅ ]};
     trace := [] |}.

Definition store : state :=
  store_with {[ "bw" := (CostFn 0, NODES) ]} {[ "bw" := (CostFn 1, NODES) ]}.

(** [A] declares ["r"] on nodes, [B] declares it on links. *)
Definition store_mismatch : state :=
  store_with {[ "r" := (CostFn 0, NODES) ]} {[ "r" := (CostFn 1, LINKS) ]}.

(** Both declare [r] with an owner that is neither nodes nor links. *)
Definition store_unknown (r : string) : state :=
  store_with {[ r := (CostFn 0, OtherOwner "paths") ]}
             {[ r := (CostFn 1, OtherOwner "paths") ]}.

Definition topo : Topology :=
  {| nodes := [1; 2; 3]; links := [(1, 2); (2, 3)];
     get_resources := λ e,
       match e with
       | Node 1 => {[ "bw" := Qc_of_Z 5 ]}
       | Node 2 => {[ "cpu" := Qc_of_Z 1 ]}
       | Node _ => {[ "bw" := Qc_of_Z 7 ]}
       | Link _ _ => {[ "bw" := Qc_of_Z 9 ]}
       end |}.

Definition config : NetworkConfig :=
  {| get_caps :=
       Some {| caps_table := {[ "bw" := {[ Node 1 := Qc_of_Z 3 ]} ]} |} |}.

(** A model builder that answers each single-objective call with one
    expression, numbered by the length of its history. *)
Definition answers (tr : list event) : list nat := [length tr].

(** Sets of names enumerated in the order of [elements]. *)
Definition run (network_config : option NetworkConfig)
    (weights : option pyweights) (σ : state) : result unit * state :=
  compose_apps elements elements answers [appA; appB] topo network_config
    AVG WEIGHTED weights σ.

End Scenario.

(** ** Further observations *)

(** All declarations of every resource name agree on one ownership domain,
    and that domain is recognized. *)
Definition well_declared (σ : state) (apps : list App) : Prop :=
  ∀ r a b cfa ma cfb mb,
    a ∈ apps → b ∈ apps →
    declares σ a r cfa ma → declares σ b r cfb mb →
    ma = mb ∧ recognized ma.

(** The [weights] argument passes the block that computes the weights:
    nothing is checked when it is [None]. *)
Definition weights_accepted (weights : option pyweights) : Prop :=
  match weights with
  | None => True
  | Some w => weights_in_range w = Ok true
  end.

(** The resource names of the caps table, if there is one. *)
Definition capped_names (network_config : option NetworkConfig)
  : gset string :=
  match network_config with
  | Some config =>
      match get_caps config with
      | Some c => dom (caps_table c)
      | None => ∅
      end
  | None => ∅
  end.

Definition is_named_constraints (e : event) : bool :=
  match e with EvNamedConstraints _ => true | _ => false end.

(** The value of a weight that is a finite number. *)
Definition finite_value (w : pyfloat) : option Qc :=
  match w with Finite q => Some q | _ => None end.

(** The elements of a weight array. *)
Definition weight_list (w : pyweights) : list pyfloat :=
  match w with Scalar x => [x] | NDArray ws => ws end.

(** ** Further scenarios *)

(** An application that reports no traffic. *)
Definition idle (app : App) : App :=
  {| name := name app; pptc := pptc app; resource_cost := resource_cost app;
     obj := obj app; obj_tc := obj_tc app; volume := 0%Qc |}.

(** Both applications use a resource that nothing in the topology
    advertises. *)
Definition store_unadvertised : state :=
  Scenario.store_with {[ "disk" := (CostFn 0, NODES) ]}
                      {[ "disk" := (CostFn 1, NODES) ]}.

(** * Auxiliary results *)

(** ** The monad *)

Lemma bind_run {A B} (m : M A) (k : A → M B) (σ : state) :
  (m ≫= k) σ = match m σ with
               | (Ok a, σ') => k a σ'
               | (Raise e, σ') => (Raise e, σ')
               end.
Proof. reflexivity. Qed.

Lemma for_each_app {A} (l1 l2 : list A) (body : A → M unit) (σ : state) :
  for_each (l1 ++ l2) body σ =
  match for_each l1 body σ with
  | (Ok _, σ') => for_each l2 body σ'
  | (Raise e, σ') => (Raise e, σ')
  end.
Proof.
  revert σ. induction l1 as [|x l1 IH]; intros σ; [done|].
  simpl. rewrite !bind_run. destruct (body x σ) as [[[]|e] σ1]; [apply IH|done].
Qed.

(** ** Merging path sets *)

Lemma lookup_PPTC_merge (p q : PPTC) (tc : traffic_class) :
  PPTC_merge p q !! tc =
  union_with (λ ps qs, Some (ps ∪ qs)) (p !! tc) (q !! tc).
Proof. apply lookup_union_with. Qed.

Lemma PPTC_merge_empty_r (p : PPTC) : PPTC_merge p ∅ = p.
Proof.
  apply map_eq. intros tc. rewrite lookup_PPTC_merge, lookup_empty.
  by destruct (p !! tc).
Qed.

Lemma PPTC_merge_idemp (p : PPTC) : PPTC_merge p p = p.
Proof.
  apply map_eq. intros tc. rewrite lookup_PPTC_merge.
  destruct (p !! tc) as [ps|]; simpl; [|done].
  f_equal. set_solver.
Qed.

Lemma paths_of_PPTC_merge (p q : PPTC) (tc : traffic_class) :
  paths_of (PPTC_merge p q) tc = paths_of p tc ∪ paths_of q tc.
Proof.
  unfold paths_of. rewrite lookup_PPTC_merge.
  destruct (p !! tc), (q !! tc); simpl; set_solver.
Qed.

Lemma dom_PPTC_merge (p q : PPTC) :
  dom (PPTC_merge p q) = dom p ∪ dom q.
Proof.
  apply set_eq. intros tc. rewrite elem_of_union, !elem_of_dom.
  rewrite lookup_PPTC_merge.
  destruct (p !! tc), (q !! tc); simpl; split; intros; try done;
    try (by left); try (by right); destruct_or?; by eauto using is_Some_None.
Qed.

Lemma paths_of_foldl_merge (ps : list PPTC)
    (p0 : PPTC) (tc : traffic_class) :
  paths_of (foldl PPTC_merge p0 ps) tc
  = paths_of p0 tc ∪ ⋃ ((λ p, paths_of p tc) <$> ps).
Proof.
  revert p0. induction ps as [|p ps IH]; intros p0; simpl.
  - set_solver.
  - rewrite IH, paths_of_PPTC_merge. set_solver.
Qed.

Lemma dom_foldl_merge (ps : list PPTC)
    (p0 : PPTC) :
  dom (foldl PPTC_merge p0 ps) = dom p0 ∪ ⋃ (dom <$> ps).
Proof.
  revert p0. induction ps as [|p ps IH]; intros p0; simpl.
  - set_solver.
  - rewrite IH, dom_PPTC_merge. set_solver.
Qed.

(** The merging loop, started when the object at [l] holds [p]: a path set
    that is [l] itself can only be an unallocated reference, and merging a
    path set into itself changes nothing. *)
Lemma merge_loop (l : loc) (h0 : gmap loc (PPTC))
    (apps : list App) :
  h0 !! l = None →
  ∀ (σ : state) (p : PPTC),
    st_pptc σ = <[l := p]> h0 →
    for_each apps (λ app, PPTC_update l (pptc app)) σ =
    (Ok tt,
     with_pptc σ
       (<[l := foldl PPTC_merge p
                 ((λ app, default ∅ (h0 !! pptc app)) <$> apps)]> h0)).
Proof.
  intros Hl. induction apps as [|a apps IH]; intros σ p Hσ; simpl.
  - unfold mret, M_ret. rewrite <- Hσ. by destruct σ.
  - rewrite bind_run. unfold PPTC_update at 1. rewrite bind_run. simpl.
    unfold write_pptc.
    set (σ1 := with_pptc σ _).
    assert (Hσ1 : st_pptc σ1 = <[l := PPTC_merge p (default ∅ (h0 !! pptc a))]> h0).
    { subst σ1. simpl. unfold read_pptc. rewrite Hσ.
      rewrite lookup_insert_eq, insert_insert_eq. simpl.
      destruct (decide (pptc a = l)) as [->|Hne].
      - rewrite lookup_insert_eq, Hl. simpl.
        by rewrite PPTC_merge_idemp, PPTC_merge_empty_r.
      - by rewrite lookup_insert_ne. }
    rewrite (IH σ1 _ Hσ1). subst σ1. by destruct σ.
Qed.


(** ** The consumption loop *)

Lemma consume_resource_run (apps : list App) (l : loc)
    (nc lc : gmap element (gmap string Qc)) (r : string) (σ : state) :
  consume_resource apps l nc lc r σ =
  match consume_call (read_pptc σ l) nc lc r (resource_entries σ apps r) with
  | Ok ev => (Ok tt, with_trace σ (trace σ ++ [ev]))
  | Raise e => (Raise e, σ)
  end.
Proof.
  unfold consume_resource, consume_call. rewrite bind_run.
  cbv beta iota delta [get].
  destruct (resource_entries σ apps r) as [|entry entries]; [reflexivity|].
  rewrite bind_run. unfold assert.
  destruct (bool_decide (length (remove_dups _) = 1)); [|reflexivity].
  cbv beta iota delta [mret M_ret]. rewrite bind_run.
  destruct (bool_decide (entry.2 = NODES)) eqn:HN.
  { apply bool_decide_eq_true in HN. rewrite HN. reflexivity. }
  destruct (bool_decide (entry.2 = LINKS)) eqn:HL; [|reflexivity].
  apply bool_decide_eq_true in HL. rewrite HL. reflexivity.
Qed.

Lemma with_trace_trace (σ : state) : with_trace σ (trace σ) = σ.
Proof. by destruct σ. Qed.

Lemma consume_loop_run (apps : list App) (l : loc)
    (nc lc : gmap element (gmap string Qc)) (rs : list string) (σ : state) :
  for_each rs (λ r, consume_resource apps l nc lc r) σ =
  let '(evs, o) :=
    calls_until_raise
      (λ r, consume_call (read_pptc σ l) nc lc r (resource_entries σ apps r))
      rs in
  (match o with None => Ok tt | Some e => Raise e end,
   with_trace σ (trace σ ++ evs)).
Proof.
  revert σ. induction rs as [|r rs IH]; intros σ; simpl.
  - unfold mret, M_ret. by rewrite app_nil_r, with_trace_trace.
  - rewrite bind_run, consume_resource_run.
    destruct (consume_call _ _ _ _ _) as [ev|e]; simpl.
    + rewrite IH. simpl.
      change (read_pptc (with_trace σ (trace σ ++ [ev])) l) with (read_pptc σ l).
      change (resource_entries (with_trace σ (trace σ ++ [ev])) apps)
        with (resource_entries σ apps).
      destruct (calls_until_raise _ rs) as [evs o]. simpl.
      f_equal. unfold with_trace. simpl. by rewrite <- app_assoc.
    + by rewrite app_nil_r, with_trace_trace.
Qed.


(** ** Loops that only call the model builder *)

Lemma for_each_emit {A} (l : list A) (call : A → event) (σ : state) :
  for_each l (λ x, emit (call x)) σ
  = (Ok tt, with_trace σ (trace σ ++ (call <$> l))).
Proof.
  revert σ. induction l as [|x l IH]; intros σ.
  - cbn. by rewrite app_nil_r, with_trace_trace.
  - cbn [for_each]. rewrite bind_run. cbv beta iota delta [emit].
    rewrite IH. cbn. unfold with_trace. cbn. by rewrite <- app_assoc.
Qed.

(** ** The objective loop *)

Section Objectives.

Variable single_objective : list event → epoch_objs.

Lemma add_objective_run (app : App) (σ : state) :
  add_objective single_objective app σ =
  (Ok (single_objective (trace σ ++ [objective_call σ app])),
   with_trace
     (with_dict σ (<[fresh (dom (st_dict σ)) := objective_kwargs σ app]>
                     (st_dict σ)))
     (trace σ ++ [objective_call σ app])).
Proof.
  unfold add_objective, objective_call, objective_kwargs.
  rewrite bind_run. cbv beta iota zeta delta [dict_copy].
  set (l := fresh (dom (st_dict σ))).
  rewrite bind_run. unfold dict_update at 1. rewrite bind_run.
  cbv beta iota delta [get write_dict]. rewrite bind_run.
  cbv beta iota delta [get opt_add_single_objective].
  rewrite bind_run. cbv beta iota delta [emit]. rewrite bind_run.
  cbv beta iota delta [get mret M_ret].
  unfold read_dict, with_dict, with_trace. cbn.
  rewrite !lookup_insert_eq, insert_insert_eq. cbn. reflexivity.
Qed.

(** Whatever the store, the loop returns, makes only single-objective
    calls, extends the dictionaries and leaves the rest of the store
    alone. *)
Lemma objectives_frame (apps : list App) (σ : state) :
  ∃ rows h evs,
    mapM (add_objective single_objective) apps σ
    = (Ok rows, with_trace (with_dict σ h) (trace σ ++ evs))
    ∧ st_dict σ ⊆ h
    ∧ Forall (λ ev, kind_of ev = KSingleObjective) evs.
Proof.
  revert σ. induction apps as [|a apps IH]; intros σ.
  - exists [], (st_dict σ), []. split_and!; [|done|done].
    cbn. rewrite app_nil_r. by destruct σ.
  - cbn [mapM]. rewrite bind_run, add_objective_run.
    set (σ1 := with_trace _ _).
    destruct (IH σ1) as (rows & h & evs & Hrun & Hsub & Hevs).
    rewrite bind_run, Hrun. cbn.
    eexists _, h, (_ :: evs). split_and!.
    + unfold with_trace, with_dict. cbn. by rewrite <- app_assoc.
    + etrans; [|exact Hsub]. subst σ1. cbn.
      apply insert_subseteq, not_elem_of_dom, is_fresh.
    + by constructor.
Qed.

(** When the keyword options of the applications are allocated, the
    calls and the rows are those determined by the initial store. *)
Lemma objectives_run (apps : list App) (σ0 σ : state) :
  st_dict σ0 ⊆ st_dict σ →
  (∀ app, app ∈ apps → (obj app).2 ∈ dom (st_dict σ0)) →
  ∃ h,
    mapM (add_objective single_objective) apps σ
    = (Ok (objective_rows single_objective (trace σ)
             (objective_call σ0 <$> apps)),
       with_trace (with_dict σ h)
         (trace σ ++ (objective_call σ0 <$> apps)))
    ∧ st_dict σ ⊆ h.
Proof.
  revert σ. induction apps as [|a apps IH]; intros σ Hsub Hwf.
  - exists (st_dict σ). split; [|done].
    cbn. rewrite app_nil_r. by destruct σ.
  - cbn [mapM]. rewrite bind_run, add_objective_run.
    assert (Hcall : objective_call σ a = objective_call σ0 a).
    { unfold objective_call, objective_kwargs, read_dict.
      assert (Ha : (obj a).2 ∈ dom (st_dict σ0)) by (apply Hwf; by left).
      apply elem_of_dom in Ha as [d Hd].
      by rewrite Hd, (lookup_weaken _ _ _ _ Hd Hsub). }
    rewrite Hcall.
    set (σ1 := with_trace _ _).
    assert (Hsub1 : st_dict σ ⊆ st_dict σ1).
    { subst σ1. cbn. apply insert_subseteq, not_elem_of_dom, is_fresh. }
    destruct (IH σ1) as (h & Hrun & Hh).
    { by etrans. }
    { intros app Happ. apply Hwf. by right. }
    rewrite bind_run, Hrun. cbn.
    exists h. split.
    + unfold with_trace, with_dict. cbn. by rewrite <- app_assoc.
    + by etrans.
Qed.

End Objectives.


(** ** The whole run *)

Section Run.

Variable set_order : gset string → list string.
Variable resources_order : gset string → list string.
Variable single_objective : list event → epoch_objs.

Lemma compose_apps_run (apps : list App) (topo : Topology)
    (network_config : option NetworkConfig) (epoch_mode : EpochComposition)
    (fairness : Fairness) (weights : option pyweights) (σ : state) :
  compose_apps set_order resources_order single_objective apps topo
    network_config epoch_mode fairness weights σ =
  let σ1 := merged_state σ apps in
  let '(evs, o) := consume_calls set_order σ apps topo in
  let tr := EvInit (nodes topo) (links topo) (merged_pptc σ apps) :: evs in
  match o with
  | Some e => (Raise e, with_trace σ1 tr)
  | None =>
      let tr' := tr ++ cap_calls resources_order network_config
                    ++ (EvNamedConstraints <$> apps) in
      match weights_used apps weights with
      | Raise e => (Raise e, with_trace σ1 tr')
      | Ok w =>
          match mapM (add_objective single_objective) apps
                  (with_trace σ1 tr') with
          | (Ok objs, σ') =>
              (Ok tt,
               with_trace σ'
                 (trace σ' ++ [EvComposeObjectives objs epoch_mode fairness w]))
          | (Raise e, σ') => (Raise e, σ')
          end
      end
  end.
Proof.
  unfold compose_apps, consume_calls, merged_state.
  rewrite bind_run. cbv beta iota zeta delta [PPTC_new].
  set (l := fresh (dom (st_pptc σ))).
  assert (Hl : st_pptc σ !! l = None) by apply not_elem_of_dom, is_fresh.
  rewrite bind_run.
  rewrite (merge_loop l (st_pptc σ) apps Hl
             (with_pptc σ (<[l := ∅]> (st_pptc σ))) ∅ eq_refl).
  change (foldl PPTC_merge ∅ _) with (merged_pptc σ apps).
  set (p := merged_pptc σ apps).
  rewrite bind_run. cbv beta iota delta [OptimizationGurobi].
  rewrite bind_run. cbv beta iota delta [get].
  rewrite bind_run, consume_loop_run.
  change (with_pptc (with_pptc σ ?a) ?h) with (with_pptc σ h).
  set (σ1 := with_pptc σ (<[l:=p]> (st_pptc σ))).
  assert (Hp : read_pptc σ1 l = p).
  { unfold read_pptc, σ1. cbn. by rewrite lookup_insert_eq. }
  rewrite Hp.
  change (read_pptc (with_trace σ1 ?t) l) with (read_pptc σ1 l).
  rewrite Hp.
  change (resource_entries (with_trace σ1 ?t) apps)
    with (resource_entries σ apps).
  change (resource_names (with_trace σ1 ?t) apps)
    with (resource_names σ apps).
  destruct (calls_until_raise _ _) as [evs [e|]]; [reflexivity|].
  cbv zeta.
  set (init := EvInit (nodes topo) (links topo) p).
  change (with_trace (with_trace σ1 ?t) ?u) with (with_trace σ1 u).
  change (trace (with_trace σ1 ?t)) with t.
  rewrite bind_run.
  assert (Hcaps :
    match network_config with
    | Some config =>
        match get_caps config with
        | Some c =>
            for_each (resources resources_order c)
              (λ r, opt_cap r (caps c r) None)
        | None => mret ()
        end
    | None => mret ()
    end (with_trace σ1 ([init] ++ evs))
    = (Ok tt, with_trace σ1 (init :: evs
                              ++ cap_calls resources_order network_config))).
  { unfold cap_calls.
    destruct network_config as [[[c|]]|];
      try (cbn; by rewrite app_nil_r).
    unfold opt_cap. cbn [get_caps]. by rewrite for_each_emit. }
  rewrite Hcaps. clear Hcaps.
  rewrite bind_run. unfold opt_add_named_constraints.
  rewrite for_each_emit.
  change (with_trace (with_trace σ1 ?t) ?u) with (with_trace σ1 u).
  change (trace (with_trace σ1 ?t)) with t.
  rewrite <- app_comm_cons, <- app_assoc.
  set (tr' := _ :: _ ++ _ ++ _).
  rewrite bind_run. unfold weights_used.
  destruct weights as [w|].
  - rewrite bind_run. cbv beta iota delta [lift].
    destruct (weights_in_range w) as [[|]|e]; reflexivity.
  - reflexivity.
Qed.

End Run.


(** ** Rounds of the consumption loop *)

Lemma calls_until_raise_spec {A} (round : A → result event) (l : list A)
    (evs : list event) (o : option exn) :
  calls_until_raise round l = (evs, o) →
  ∃ l1 l2, l = l1 ++ l2
    ∧ Forall2 (λ x ev, round x = Ok ev) l1 evs
    ∧ match o with
      | None => l2 = []
      | Some e => ∃ x l2', l2 = x :: l2' ∧ round x = Raise e
      end.
Proof.
  revert evs o. induction l as [|x l IH]; intros evs o; cbn.
  - intros [= <- <-]. by exists [], [].
  - destruct (round x) as [ev|e] eqn:Hx.
    + destruct (calls_until_raise round l) as [evs' o'].
      intros [= <- <-].
      destruct (IH evs' o' eq_refl) as (l1 & l2 & -> & Hall & Ho).
      exists (x :: l1), l2. split_and!; [done| by constructor | done].
    + intros [= <- <-]. exists [], (x :: l). split_and!; [done|constructor|].
      by exists x, l.
Qed.

Lemma remove_dups_length_1 {A} `{EqDecision A} (l : list A) :
  length (remove_dups l) = 1 ↔ ∃ x, x ∈ l ∧ ∀ y, y ∈ l → y = x.
Proof.
  split.
  - intros Hlen. destruct (remove_dups l) as [|x [|z k]] eqn:Hrd; try done.
    exists x. split.
    + apply elem_of_remove_dups. rewrite Hrd. by left.
    + intros y Hy%elem_of_remove_dups. rewrite Hrd in Hy.
      by apply list_elem_of_singleton in Hy.
  - intros (x & Hx & Hall).
    assert (Hnd := NoDup_remove_dups l).
    destruct (remove_dups l) as [|y [|z k]] eqn:Hrd.
    + apply elem_of_remove_dups in Hx. rewrite Hrd in Hx. by inversion Hx.
    + done.
    + assert (Hy : y = x).
      { apply Hall, elem_of_remove_dups. rewrite Hrd. by left. }
      assert (Hz : z = x).
      { apply Hall, elem_of_remove_dups. rewrite Hrd. right. by left. }
      subst. inversion Hnd as [|?? Hnotin]. subst.
      exfalso. apply Hnotin. by left.
Qed.

Lemma elem_of_resource_entries (σ : state) (apps : list App) (r : string)
    (cf : costfn) (mode : owner) :
  (cf, mode) ∈ resource_entries σ apps r
  ↔ ∃ app, app ∈ apps ∧ declares σ app r cf mode.
Proof. unfold resource_entries, declares. apply list_elem_of_omap. Qed.

Lemma resource_entries_fst (σ : state) (apps : list App) (r : string) :
  (resource_entries σ apps r).*1 = cost_functions σ apps r.
Proof.
  unfold resource_entries, cost_functions.
  induction apps as [|a apps IH]; [done|]. cbn.
  destruct (read_rcost σ (resource_cost a) !! r); cbn; by rewrite IH.
Qed.

Lemma elem_of_resource_names (σ : state) (apps : list App) (r : string) :
  r ∈ resource_names σ apps ↔ ∃ app, app ∈ apps ∧ references σ app r.
Proof.
  unfold resource_names, references.
  assert (Hgen : ∀ (acc : gset string),
    r ∈ foldl (λ rset app, rset ∪ dom (read_rcost σ (resource_cost app)))
          acc apps
    ↔ r ∈ acc ∨ ∃ app, app ∈ apps
                       ∧ is_Some (read_rcost σ (resource_cost app) !! r)).
  { induction apps as [|a apps IH]; intros acc; cbn.
    - split; [by left|]. intros [?|(app & Hin & _)]; [done|by inversion Hin].
    - rewrite IH, elem_of_union, elem_of_dom. split.
      + intros [[?|?]|(app & Hin & Happ)]; [by left| |].
        * right. exists a. split; [by left|done].
        * right. exists app. split; [by right|done].
      + intros [?|(app & Hin & Happ)]; [by left; left|].
        apply elem_of_cons in Hin as [->|Hin]; [by left; right|].
        right. by exists app. }
  rewrite Hgen. split; [|by right].
  intros [Hemp|?]; [|done]. by apply not_elem_of_empty in Hemp.
Qed.

(** What a round that makes its call has established. *)
Lemma consume_call_Ok (p : PPTC)
    (nc lc : gmap element (gmap string Qc)) (r : string)
    (entries : list (costfn * owner)) (ev : event) :
  consume_call p nc lc r entries = Ok ev →
  ∃ mode,
    (∃ cf, (cf, mode) ∈ entries)
    ∧ (∀ cf m, (cf, m) ∈ entries → m = mode)
    ∧ ((mode = NODES
        ∧ ev = EvConsume p r entries.*1 (capacities_of nc r) NODES)
       ∨ (mode = LINKS
          ∧ ev = EvConsume p r entries.*1 (capacities_of lc r) LINKS)).
Proof.
  unfold consume_call. destruct entries as [|[cf0 m0] entries]; [done|].
  case_bool_decide as Hlen; [|done].
  apply remove_dups_length_1 in Hlen as (x & Hx & Hall).
  assert (Hm0 : m0 = x). { apply Hall. cbn. by left. }
  subst x. intros Hev. exists m0. split_and!.
  - exists cf0. by left.
  - intros cf m Hin. apply Hall. apply list_elem_of_fmap. by exists (cf, m).
  - cbn in Hev. repeat case_bool_decide; simplify_eq; [by left|by right].
Qed.

(** Why a round raises. *)
Lemma consume_call_Raise (p : PPTC)
    (nc lc : gmap element (gmap string Qc)) (r : string)
    (entries : list (costfn * owner)) (e : exn) :
  consume_call p nc lc r entries = Raise e →
  (entries = [] ∧ e = ValueError)
  ∨ (e = AssertionError
     ∧ ∃ cf1 m1 cf2 m2,
         (cf1, m1) ∈ entries ∧ (cf2, m2) ∈ entries ∧ m1 ≠ m2)
  ∨ (∃ mode, (∃ cf, (cf, mode) ∈ entries)
       ∧ (∀ cf m, (cf, m) ∈ entries → m = mode)
       ∧ ¬ recognized mode
       ∧ e = InvalidConfigException (ERR_UNKNOWN_MODE "resource owner" mode)).
Proof.
  unfold consume_call. destruct entries as [|[cf0 m0] entries].
  { intros [= <-]. by left. }
  case_bool_decide as Hlen.
  - apply remove_dups_length_1 in Hlen as (x & Hx & Hall).
    assert (Hm0 : m0 = x). { apply Hall. cbn. by left. }
    subst x. cbn. repeat case_bool_decide; try done.
    intros [= <-]. right. right. exists m0. split_and!; [|  |  |done].
    + exists cf0. by left.
    + intros cf m Hin. apply Hall. apply list_elem_of_fmap. by exists (cf, m).
    + by intros [?|?].
  - intros [= <-]. right. left. split; [done|].
    destruct (decide (Forall (λ en : costfn * owner, en.2 = m0) entries))
      as [Hall|Hnall].
    + exfalso. apply Hlen. apply remove_dups_length_1. exists m0. split.
      * cbn. by left.
      * intros y [->|Hy]%elem_of_cons; [done|].
        apply list_elem_of_fmap in Hy as (en & -> & Hen).
        by apply (proj1 (Forall_forall _ _) Hall).
    + apply not_Forall_Exists in Hnall; [|apply _].
      apply Exists_exists in Hnall as ([cf m] & Hin & Hne).
      exists cf0, m0, cf, m. split_and!; [by left|by right|].
      intros ->. by apply Hne.
Qed.


(** ** Capacities read from the topology *)

Lemma lookup_foldl_insert {A V} (key : A → element) (val : element → V)
    (l : list A) (acc : gmap element V) (e : element) :
  foldl (λ d x, <[key x := val (key x)]> d) acc l !! e
  = if decide (e ∈ key <$> l) then Some (val e) else acc !! e.
Proof.
  revert acc. induction l as [|x l IH]; intros acc; cbn [foldl].
  - rewrite decide_False; [done|]. cbn. by intros ?%elem_of_nil.
  - rewrite IH. rewrite fmap_cons.
    destruct (decide (e ∈ key <$> l)) as [Hin|Hnin].
    + rewrite decide_True; [done|by right].
    + destruct (decide (e = key x)) as [->|Hne].
      * rewrite lookup_insert_eq. rewrite decide_True; [done|by left].
      * rewrite lookup_insert_ne by done.
        rewrite decide_False; [done|].
        by intros [?|?]%elem_of_cons.
Qed.

Lemma lookup_node_capacities (topo : Topology) (r : string) (e : element)
    (c : Qc) :
  capacities_of (node_caps topo) r !! e = Some c
  ↔ ∃ n, n ∈ nodes topo ∧ e = Node n
         ∧ get_resources topo (Node n) !! r = Some c.
Proof.
  unfold capacities_of, node_caps. rewrite lookup_omap.
  rewrite (lookup_foldl_insert Node (get_resources topo)).
  destruct (decide (e ∈ Node <$> nodes topo)) as [Hin|Hnin]; cbn.
  - apply list_elem_of_fmap in Hin as (n & -> & Hn). split.
    + intros Hc. by exists n.
    + by intros (n' & _ & [= <-] & Hc).
  - rewrite lookup_empty. cbn. split; [done|].
    intros (n & Hn & -> & _). exfalso. apply Hnin.
    apply list_elem_of_fmap. by exists n.
Qed.

Lemma lookup_link_capacities (topo : Topology) (r : string) (e : element)
    (c : Qc) :
  capacities_of (link_caps topo) r !! e = Some c
  ↔ ∃ u v, (u, v) ∈ links topo ∧ e = Link u v
           ∧ get_resources topo (Link u v) !! r = Some c.
Proof.
  unfold capacities_of, link_caps. rewrite lookup_omap.
  rewrite (lookup_foldl_insert (λ l : nat * nat, Link l.1 l.2)
             (get_resources topo)).
  destruct (decide (e ∈ (λ l : nat * nat, Link l.1 l.2) <$> links topo))
    as [Hin|Hnin]; cbn.
  - apply list_elem_of_fmap in Hin as ([u v] & -> & Hl). cbn. split.
    + intros Hc. by exists u, v.
    + by intros (u' & v' & _ & [= <- <-] & Hc).
  - rewrite lookup_empty. cbn. split; [done|].
    intros (u & v & Hl & -> & _). exfalso. apply Hnin.
    apply list_elem_of_fmap. by exists (u, v).
Qed.


(** ** The shape of a run *)

Section Shape.

Variable set_order : gset string → list string.
Variable resources_order : gset string → list string.
Variable single_objective : list event → epoch_objs.

Lemma compose_apps_shape (apps : list App) (topo : Topology)
    (network_config : option NetworkConfig) (epoch_mode : EpochComposition)
    (fairness : Fairness) (weights : option pyweights) (σ : state) :
  let run := compose_apps set_order resources_order single_objective apps
               topo network_config epoch_mode fairness weights σ in
  let tr' := calls_before_weights set_order resources_order apps topo
               network_config σ in
  st_pptc run.2
    = <[fresh (dom (st_pptc σ)) := merged_pptc σ apps]> (st_pptc σ)
  ∧ st_rcost run.2 = st_rcost σ
  ∧ st_dict σ ⊆ st_dict run.2
  ∧ match (consume_calls set_order σ apps topo).2 with
    | Some e =>
        run.1 = Raise e
        ∧ trace run.2
          = EvInit (nodes topo) (links topo) (merged_pptc σ apps)
            :: (consume_calls set_order σ apps topo).1
    | None =>
        match weights_used apps weights with
        | Raise e => run.1 = Raise e ∧ trace run.2 = tr'
        | Ok w =>
            run.1 = Ok tt
            ∧ ∃ ocalls rows,
                trace run.2
                = tr' ++ ocalls
                  ++ [EvComposeObjectives rows epoch_mode fairness w]
                ∧ Forall (λ ev, kind_of ev = KSingleObjective) ocalls
                ∧ ((∀ app, app ∈ apps → (obj app).2 ∈ dom (st_dict σ)) →
                   ocalls = objective_call σ <$> apps
                   ∧ rows = objective_rows single_objective tr' ocalls)
        end
    end.
Proof.
  cbv zeta. rewrite compose_apps_run. unfold calls_before_weights.
  destruct (consume_calls set_order σ apps topo) as [evs [e|]]; cbn zeta.
  { cbn. done. }
  cbn [fst snd]. rewrite <- !app_comm_cons.
  set (tr' := EvInit _ _ _ :: _).
  destruct (weights_used apps weights) as [w|e]; [|by cbn].
  destruct (objectives_frame single_objective apps
              (with_trace (merged_state σ apps) tr'))
    as (rows & h & ocalls & Hrun & Hsub & Hshape).
  rewrite Hrun. cbn. split_and!; try done.
  exists ocalls, rows. split_and!; [by rewrite <- app_assoc|done|].
  intros Hwf.
  destruct (objectives_run single_objective apps σ
              (with_trace (merged_state σ apps) tr') (reflexivity _) Hwf)
    as (h' & Hrun' & _).
  rewrite Hrun in Hrun'. injection Hrun' as Hrows Hh Htr.
  apply app_inv_head in Htr. by subst.
Qed.

End Shape.


(** ** Consume calls in the trace *)

Lemma filter_none {A} (P : A → bool) (l : list A) :
  Forall (λ x, P x = false) l → List.filter P l = [].
Proof.
  induction 1 as [|x l Hx _ IH]; [done|]. cbn. by rewrite Hx.
Qed.

Lemma filter_rounds (round : string → result event) (rs : list string)
    (evs : list event) (r : string) :
  Forall2 (λ x ev, round x = Ok ev) rs evs →
  (∀ x ev, round x = Ok ev → is_consume_of r ev = bool_decide (x = r)) →
  NoDup rs →
  (r ∈ rs → ∃ ev, round r = Ok ev ∧ List.filter (is_consume_of r) evs = [ev])
  ∧ (r ∉ rs → List.filter (is_consume_of r) evs = []).
Proof.
  intros Hall Hkind. induction Hall as [|x ev rs evs Hx Hall IH].
  - intros _. split; [by intros ?%elem_of_nil|done].
  - intros [Hnotin Hnd]%NoDup_cons. destruct (IH Hnd) as [IHin IHout].
    cbn. rewrite (Hkind x ev Hx). case_bool_decide as Hxr.
    + subst x. split; [|by intros []; left].
      intros _. exists ev. split; [done|]. by rewrite IHout.
    + split.
      * intros [?|Hin]%elem_of_cons; [done|]. by apply IHin.
      * intros Hout. apply IHout. intros ?. apply Hout. by right.
Qed.

Lemma consume_call_kind (p : PPTC)
    (nc lc : gmap element (gmap string Qc)) (x r : string)
    (entries : list (costfn * owner)) (ev : event) :
  consume_call p nc lc x entries = Ok ev →
  is_consume_of r ev = bool_decide (x = r).
Proof.
  intros (mode & _ & _ & [[_ ->]|[_ ->]])%consume_call_Ok; done.
Qed.

Section ConsumeCalls.

Variable set_order : gset string → list string.
Hypothesis set_order_perm : ∀ X, set_order X ≡ₚ elements X.

Variables (σ : state) (apps : list App) (topo : Topology).

Local Abbreviation round :=
  (λ r : string,
     consume_call (merged_pptc σ apps) (node_caps topo) (link_caps topo) r
       (resource_entries σ apps r)).

Lemma elem_of_set_order (X : gset string) (r : string) :
  r ∈ set_order X ↔ r ∈ X.
Proof. by rewrite (set_order_perm X), elem_of_elements. Qed.

Lemma NoDup_set_order (X : gset string) : NoDup (set_order X).
Proof. rewrite (set_order_perm X). apply NoDup_elements. Qed.

(** A resource the loop completes on has exactly one consume call. *)
Lemma consume_calls_complete (r : string) :
  (consume_calls set_order σ apps topo).2 = None →
  r ∈ resource_names σ apps →
  ∃ ev, round r = Ok ev
        ∧ List.filter (is_consume_of r)
            (consume_calls set_order σ apps topo).1 = [ev].
Proof.
  unfold consume_calls.
  destruct (calls_until_raise _ _) as [evs o] eqn:Hcalls. cbn.
  intros -> Hr.
  apply calls_until_raise_spec in Hcalls as (rs1 & rs2 & Hrs & Hall & ->).
  rewrite app_nil_r in Hrs. subst rs1.
  eapply filter_rounds in Hall as [Hin _].
  - apply Hin. by apply elem_of_set_order.
  - intros x ev. apply consume_call_kind.
  - apply NoDup_set_order.
Qed.

(** In any case a resource has at most one consume call, made by its
    round. *)
Lemma consume_calls_cases (r : string) :
  List.filter (is_consume_of r) (consume_calls set_order σ apps topo).1 = []
  ∨ ∃ ev, round r = Ok ev
          ∧ r ∈ resource_names σ apps
          ∧ List.filter (is_consume_of r)
              (consume_calls set_order σ apps topo).1 = [ev].
Proof.
  unfold consume_calls.
  destruct (calls_until_raise _ _) as [evs o] eqn:Hcalls. cbn.
  apply calls_until_raise_spec in Hcalls as (rs1 & rs2 & Hrs & Hall & _).
  assert (Hnd : NoDup rs1).
  { assert (Hnd : NoDup (rs1 ++ rs2))
      by (rewrite <- Hrs; apply NoDup_set_order).
    by apply NoDup_app in Hnd as [? _]. }
  eapply filter_rounds in Hall as [Hin Hout];
    [|intros x ev; apply consume_call_kind|done].
  destruct (decide (r ∈ rs1)) as [Hr|Hr]; [right|left; by apply Hout].
  destruct (Hin Hr) as (ev & Hev & Hfilter).
  exists ev. split_and!; [done| |done].
  apply elem_of_set_order. rewrite Hrs. apply elem_of_app. by left.
Qed.

(** The exception that ends the loop is raised by the round of a
    collected resource. *)
Lemma consume_calls_raise (e : exn) :
  (consume_calls set_order σ apps topo).2 = Some e →
  ∃ r, r ∈ resource_names σ apps ∧ round r = Raise e.
Proof.
  unfold consume_calls.
  destruct (calls_until_raise _ _) as [evs o] eqn:Hcalls. cbn.
  intros ->.
  apply calls_until_raise_spec in Hcalls
    as (rs1 & rs2 & Hrs & _ & x & rs2' & -> & Hx).
  exists x. split; [|done].
  apply elem_of_set_order. rewrite Hrs. apply elem_of_app. right. by left.
Qed.

(** A collected resource whose round raises stops the loop, at that
    round or before. *)
Lemma consume_calls_stop (r : string) (e : exn) :
  r ∈ resource_names σ apps →
  round r = Raise e →
  (∃ e', (consume_calls set_order σ apps topo).2 = Some e')
  ∧ List.filter (is_consume_of r)
      (consume_calls set_order σ apps topo).1 = [].
Proof.
  intros Hr Hraise. split.
  - destruct ((consume_calls set_order σ apps topo).2) as [e'|] eqn:Ho;
      [by exists e'|].
    destruct (consume_calls_complete r Ho Hr) as (ev & Hev & _).
    congruence.
  - destruct (consume_calls_cases r) as [?|(ev & Hev & _)]; [done|].
    congruence.
Qed.

End ConsumeCalls.


(** ** Kinds of calls in the parts of a trace *)

Lemma filter_kind_none (P : event → bool) (k : call_kind) (l : list event) :
  (∀ ev, kind_of ev = k → P ev = false) →
  Forall (λ ev, kind_of ev = k) l →
  List.filter P l = [].
Proof.
  intros HP Hl. apply filter_none. eapply Forall_impl; [exact Hl|]. apply HP.
Qed.

Lemma cap_calls_kind (resources_order : gset string → list string)
    (network_config : option NetworkConfig) :
  Forall (λ ev, kind_of ev = KCap) (cap_calls resources_order network_config).
Proof.
  unfold cap_calls. destruct network_config as [[[c|]]|]; try by constructor.
  cbn. apply Forall_fmap, Forall_true. done.
Qed.

Lemma named_calls_kind (apps : list App) :
  Forall (λ ev, kind_of ev = KNamedConstraints) (EvNamedConstraints <$> apps).
Proof. apply Forall_fmap, Forall_true. done. Qed.

Lemma consume_calls_kind (set_order : gset string → list string) (σ : state)
    (apps : list App) (topo : Topology) :
  Forall (λ ev, kind_of ev = KConsume) (consume_calls set_order σ apps topo).1.
Proof.
  unfold consume_calls.
  destruct (calls_until_raise _ _) as [evs o] eqn:Hcalls. cbn.
  apply calls_until_raise_spec in Hcalls as (rs1 & rs2 & _ & Hall & _).
  induction Hall as [|r ev rs evs Hr _ IH]; constructor; [|done].
  by apply consume_call_Ok in Hr as (mode & _ & _ & [[_ ->]|[_ ->]]).
Qed.

Section TraceParts.

Variable set_order : gset string → list string.
Variable resources_order : gset string → list string.
Variable single_objective : list event → epoch_objs.

Variables (apps : list App) (topo : Topology)
  (network_config : option NetworkConfig) (epoch_mode : EpochComposition)
  (fairness : Fairness) (weights : option pyweights) (σ : state).

Local Abbreviation run :=
  (compose_apps set_order resources_order single_objective apps topo
     network_config epoch_mode fairness weights σ).

(** The consume calls of a run are those of its consumption loop. *)
Lemma trace_consume_calls (r : string) :
  List.filter (is_consume_of r) (trace run.2)
  = List.filter (is_consume_of r) (consume_calls set_order σ apps topo).1.
Proof.
  destruct (compose_apps_shape set_order resources_order single_objective
              apps topo network_config epoch_mode fairness weights σ)
    as (_ & _ & _ & Hshape).
  destruct ((consume_calls set_order σ apps topo).2) as [e|].
  { destruct Hshape as [_ ->]. done. }
  assert (Hpre : List.filter (is_consume_of r)
                   (calls_before_weights set_order resources_order apps
                      topo network_config σ)
                 = List.filter (is_consume_of r)
                     (consume_calls set_order σ apps topo).1).
  { unfold calls_before_weights. cbn [List.filter is_consume_of].
    rewrite !List.filter_app.
    rewrite (filter_kind_none _ KCap (cap_calls _ _));
      [|by intros []|apply cap_calls_kind].
    rewrite (filter_kind_none _ KNamedConstraints (_ <$> apps));
      [|by intros []|apply named_calls_kind].
    by rewrite !app_nil_r. }
  destruct (weights_used apps weights) as [w|e].
  - destruct Hshape as (_ & ocalls & rows & -> & Hkind & _).
    rewrite !List.filter_app, Hpre.
    rewrite (filter_kind_none _ KSingleObjective ocalls);
      [|by intros []|done].
    cbn. by rewrite app_nil_r.
  - destruct Hshape as [_ ->]. done.
Qed.

(** When a run completes, its cap calls are those of the capping block. *)
Lemma trace_cap_calls (P : event → bool) :
  (∀ ev, kind_of ev ≠ KCap → P ev = false) →
  run.1 = Ok tt →
  List.filter P (trace run.2)
  = List.filter P (cap_calls resources_order network_config).
Proof.
  intros HP Hok.
  destruct (compose_apps_shape set_order resources_order single_objective
              apps topo network_config epoch_mode fairness weights σ)
    as (_ & _ & _ & Hshape).
  destruct ((consume_calls set_order σ apps topo).2) as [e|] eqn:Ho.
  { destruct Hshape as [Hr _]. congruence. }
  destruct (weights_used apps weights) as [w|e];
    [|destruct Hshape as [Hr _]; congruence].
  destruct Hshape as (_ & ocalls & rows & -> & Hkind & _).
  unfold calls_before_weights. rewrite <- !app_comm_cons.
  cbn [List.filter]. rewrite (HP (EvInit _ _ _)) by done.
  rewrite !List.filter_app.
  rewrite (filter_kind_none P KConsume (consume_calls _ _ _ _).1);
    [|by intros ? Hk; apply HP; rewrite Hk|apply consume_calls_kind].
  rewrite (filter_kind_none P KNamedConstraints (_ <$> apps));
    [|by intros ? Hk; apply HP; rewrite Hk|apply named_calls_kind].
  rewrite (filter_kind_none P KSingleObjective ocalls);
    [|by intros ? Hk; apply HP; rewrite Hk|done].
  cbn [List.filter]. rewrite (HP (EvComposeObjectives _ _ _ _)) by done.
  by rewrite !app_nil_r.
Qed.

(** Every cap call of a run, completed or not, is one of the capping
    block. *)
Lemma trace_cap_calls_incl (ev : event) :
  ev ∈ trace run.2 → kind_of ev = KCap →
  ev ∈ cap_calls resources_order network_config.
Proof.
  intros Hin Hk.
  destruct (compose_apps_shape set_order resources_order single_objective
              apps topo network_config epoch_mode fairness weights σ)
    as (_ & _ & _ & Hshape).
  assert (Hcons : ev ∉ (consume_calls set_order σ apps topo).1).
  { intros Hc.
    pose proof (consume_calls_kind set_order σ apps topo) as Hall.
    rewrite Forall_forall in Hall. specialize (Hall ev Hc). congruence. }
  assert (Hpre : ev ∈ calls_before_weights set_order resources_order apps
                        topo network_config σ →
                 ev ∈ cap_calls resources_order network_config).
  { unfold calls_before_weights.
    intros [->|[?|[?|Hn]%elem_of_app]%elem_of_app]%elem_of_cons;
      [done|done|done|].
    pose proof (named_calls_kind apps) as Hall.
    rewrite Forall_forall in Hall. specialize (Hall ev Hn). congruence. }
  destruct ((consume_calls set_order σ apps topo).2) as [e|].
  { destruct Hshape as [_ Htr]. rewrite Htr in Hin.
    apply elem_of_cons in Hin as [->|?]; done. }
  destruct (weights_used apps weights) as [w|e].
  - destruct Hshape as (_ & ocalls & rows & Htr & Hkind & _).
    rewrite Htr in Hin.
    apply elem_of_app in Hin as [?|[Ho|Hc]%elem_of_app]; [by apply Hpre| |].
    + rewrite Forall_forall in Hkind. specialize (Hkind ev Ho). congruence.
    + apply list_elem_of_singleton in Hc. by subst.
  - destruct Hshape as [_ Htr]. rewrite Htr in Hin. by apply Hpre.
Qed.

End TraceParts.


(** * Properties of the composition *)

(** ** Path union *)

Lemma lookup_merged_Some (σ : state) (apps : list App) (tc : traffic_class) :
  (∃ app, app ∈ apps ∧ tc ∈ dom (read_pptc σ (pptc app))) →
  merged_pptc σ apps !! tc
  = Some (⋃ ((λ app, paths_of (read_pptc σ (pptc app)) tc) <$> apps)).
Proof.
  intros (app & Happ & Htc). unfold merged_pptc, app_pptcs.
  assert (Hdom : tc ∈ dom (foldl PPTC_merge ∅
                    ((λ app, read_pptc σ (pptc app)) <$> apps))).
  { rewrite dom_foldl_merge. apply elem_of_union. right.
    apply elem_of_union_list. exists (dom (read_pptc σ (pptc app))).
    split; [|done]. apply list_elem_of_fmap.
    exists (read_pptc σ (pptc app)). split; [done|].
    apply list_elem_of_fmap. by exists app. }
  apply elem_of_dom in Hdom as [ps Hps]. rewrite Hps. f_equal.
  pose proof (paths_of_foldl_merge ((λ app, read_pptc σ (pptc app)) <$> apps)
                ∅ tc) as Hpaths.
  unfold paths_of at 1 in Hpaths. rewrite Hps in Hpaths. cbn in Hpaths.
  rewrite Hpaths. unfold paths_of at 1. rewrite lookup_empty. cbn.
  rewrite <- list_fmap_compose. set_solver.
Qed.

Lemma lookup_merged_None (σ : state) (apps : list App) (tc : traffic_class) :
  (∀ app, app ∈ apps → tc ∉ dom (read_pptc σ (pptc app))) →
  merged_pptc σ apps !! tc = None.
Proof.
  intros Hnone. apply not_elem_of_dom. unfold merged_pptc, app_pptcs.
  rewrite dom_foldl_merge. intros [Hemp|Hin]%elem_of_union.
  { by rewrite dom_empty_L in Hemp. }
  apply elem_of_union_list in Hin as (X & HX & Htc).
  apply list_elem_of_fmap in HX as (p & -> & Hp).
  apply list_elem_of_fmap in Hp as (app & -> & Happ).
  by apply (Hnone app).
Qed.

(** C2. For every traffic class present in some input application, the
    merged path set (the one the model builder is constructed with, held by
    the object [all_pptc]) maps the class to the union of the path
    collections the applications have for it; it has no other class; and
    merging in once more an application that is already merged changes
    nothing. *)
Theorem C2_merged_paths_are_unions
    (set_order resources_order : gset string → list string)
    (single_objective : list event → epoch_objs) (apps : list App)
    (topo : Topology) (network_config : option NetworkConfig)
    (epoch_mode : EpochComposition) (fairness : Fairness)
    (weights : option pyweights) (σ : state) :
  let run := compose_apps set_order resources_order single_objective apps
               topo network_config epoch_mode fairness weights σ in
  let merged := merged_pptc σ apps in
  (∃ tr, trace run.2 = EvInit (nodes topo) (links topo) merged :: tr)
  ∧ read_pptc run.2 (fresh (dom (st_pptc σ))) = merged
  ∧ (∀ tc, (∃ app, app ∈ apps ∧ tc ∈ dom (read_pptc σ (pptc app))) →
       merged !! tc
       = Some (⋃ ((λ app, paths_of (read_pptc σ (pptc app)) tc) <$> apps)))
  ∧ (∀ tc, (∀ app, app ∈ apps → tc ∉ dom (read_pptc σ (pptc app))) →
       merged !! tc = None)
  ∧ (∀ app, app ∈ apps → merged_pptc σ (apps ++ [app]) = merged).
Proof.
  intros run merged.
  destruct (compose_apps_shape set_order resources_order single_objective
              apps topo network_config epoch_mode fairness weights σ)
    as (Hpptc & _ & _ & Hshape).
  fold run in Hpptc, Hshape. split_and!.
  - destruct ((consume_calls set_order σ apps topo).2) as [e|].
    { destruct Hshape as [_ ->]. by eexists. }
    destruct (weights_used apps weights) as [w|e].
    + destruct Hshape as (_ & ocalls & rows & -> & _).
      unfold calls_before_weights. by eexists.
    + destruct Hshape as [_ ->]. unfold calls_before_weights. by eexists.
  - unfold read_pptc. by rewrite Hpptc, lookup_insert_eq.
  - apply lookup_merged_Some.
  - apply lookup_merged_None.
  - intros app Happ. subst merged. unfold merged_pptc at 1, app_pptcs.
    rewrite fmap_app, foldl_app. cbn.
    change (foldl PPTC_merge ∅ _) with (merged_pptc σ apps).
    apply map_eq. intros tc. rewrite lookup_PPTC_merge.
    destruct (read_pptc σ (pptc app) !! tc) as [qs|] eqn:Hqs;
      [|by destruct (merged_pptc σ apps !! tc)].
    rewrite lookup_merged_Some.
    2:{ exists app. split; [done|]. apply elem_of_dom. by eexists. }
    cbn. f_equal.
    assert (Hsub : qs ⊆ ⋃ ((λ app, paths_of (read_pptc σ (pptc app)) tc)
                            <$> apps)).
    { intros q Hq. apply elem_of_union_list.
      exists (paths_of (read_pptc σ (pptc app)) tc). split.
      - apply list_elem_of_fmap. by exists app.
      - unfold paths_of. by rewrite Hqs. }
    set_solver.
Qed.

Lemma C2_witness :
  merged_pptc Scenario.store [Scenario.appA; Scenario.appB] !! 7
  = Some (⋃ ((λ app, paths_of (read_pptc Scenario.store (pptc app)) 7)
               <$> [Scenario.appA; Scenario.appB]))
  ∧ merged_pptc Scenario.store
      ([Scenario.appA; Scenario.appB] ++ [Scenario.appA])
    = merged_pptc Scenario.store [Scenario.appA; Scenario.appB].
Proof.
  destruct (C2_merged_paths_are_unions elements elements Scenario.answers
              [Scenario.appA; Scenario.appB] Scenario.topo None AVG WEIGHTED
              None Scenario.store) as (_ & _ & Hsome & _ & Hidem).
  split.
  - apply Hsome. exists Scenario.appA. split; [by left|].
    vm_compute. reflexivity.
  - apply Hidem. by left.
Defined.


(** ** Consumption constraints *)

Lemma references_declares (σ : state) (app : App) (r : string) :
  references σ app r ↔ ∃ cf mode, declares σ app r cf mode.
Proof.
  unfold references, declares. split.
  - intros [[cf mode] H]. by exists cf, mode.
  - intros (cf & mode & H). by eexists.
Qed.

Lemma run_Ok_consume_calls
    (set_order resources_order : gset string → list string)
    (single_objective : list event → epoch_objs) (apps : list App)
    (topo : Topology) (network_config : option NetworkConfig)
    (epoch_mode : EpochComposition) (fairness : Fairness)
    (weights : option pyweights) (σ : state) :
  (compose_apps set_order resources_order single_objective apps topo
     network_config epoch_mode fairness weights σ).1 = Ok tt →
  (consume_calls set_order σ apps topo).2 = None.
Proof.
  intros Hok.
  destruct (compose_apps_shape set_order resources_order single_objective
              apps topo network_config epoch_mode fairness weights σ)
    as (_ & _ & _ & Hshape).
  destruct ((consume_calls set_order σ apps topo).2) as [e|]; [|done].
  destruct Hshape as [Hr _]. congruence.
Qed.

(** C3. When composition completes: every resource name referenced by some
    application has exactly one consume call, made with the merged path
    set, that name, the cost functions of the applications referencing it
    in input order, the capacity map and the ownership domain all these
    applications declare; a name referenced by no application has no
    consume call. *)
Theorem C3_one_consume_call_per_resource
    (set_order resources_order : gset string → list string)
    (single_objective : list event → epoch_objs) (apps : list App)
    (topo : Topology) (network_config : option NetworkConfig)
    (epoch_mode : EpochComposition) (fairness : Fairness)
    (weights : option pyweights) (σ σ' : state) (r : string) :
  (∀ X, set_order X ≡ₚ elements X) →
  compose_apps set_order resources_order single_objective apps topo
    network_config epoch_mode fairness weights σ = (Ok tt, σ') →
  ((∃ app, app ∈ apps ∧ references σ app r) →
     ∃ mode,
       recognized mode
       ∧ (∀ app cf m, app ∈ apps → declares σ app r cf m → m = mode)
       ∧ List.filter (is_consume_of r) (trace σ')
         = [EvConsume (merged_pptc σ apps) r (cost_functions σ apps r)
              (capacity_map topo mode r) mode])
  ∧ ((∀ app, app ∈ apps → ¬ references σ app r) →
     List.filter (is_consume_of r) (trace σ') = []).
Proof.
  intros Hperm Hrun.
  pose proof (trace_consume_calls set_order resources_order single_objective
                apps topo network_config epoch_mode fairness weights σ r)
    as Htrace.
  pose proof (run_Ok_consume_calls set_order resources_order single_objective
                apps topo network_config epoch_mode fairness weights σ)
    as Hnone.
  rewrite Hrun in Htrace, Hnone. cbn in Htrace, Hnone.
  specialize (Hnone eq_refl). rewrite Htrace. split.
  - intros Href. apply elem_of_resource_names in Href.
    destruct (consume_calls_complete set_order Hperm σ apps topo r Hnone Href)
      as (ev & Hev & ->).
    apply consume_call_Ok in Hev as (mode & _ & Hall & Hmode).
    exists mode. split_and!.
    + destruct Hmode as [[-> _]|[-> _]]; [by left|by right].
    + intros app cf m Happ Hdecl. apply (Hall cf).
      apply elem_of_resource_entries. by exists app.
    + rewrite resource_entries_fst in Hmode.
      by destruct Hmode as [[-> ->]|[-> ->]].
  - intros Hnoref.
    destruct (consume_calls_cases set_order Hperm σ apps topo r)
      as [?|(ev & _ & Hr & _)]; [done|].
    apply elem_of_resource_names in Hr as (app & Happ & Href).
    by destruct (Hnoref app Happ).
Qed.

Lemma C3_witness :
  List.filter (is_consume_of "bw")
    (trace (Scenario.run None None Scenario.store).2)
  = [EvConsume (merged_pptc Scenario.store [Scenario.appA; Scenario.appB])
       "bw" [CostFn 0; CostFn 1]
       (capacity_map Scenario.topo NODES "bw") NODES].
Proof.
  destruct (C3_one_consume_call_per_resource elements elements
              Scenario.answers [Scenario.appA; Scenario.appB] Scenario.topo
              None AVG WEIGHTED None Scenario.store
              (Scenario.run None None Scenario.store).2 "bw")
    as [Hone _].
  - intros X. reflexivity.
  - vm_compute. reflexivity.
  - destruct Hone as (mode & _ & Hmode & ->).
    + exists Scenario.appA. split; [by left|]. vm_compute. by eexists.
    + rewrite <- (Hmode Scenario.appA (CostFn 0) NODES);
        [reflexivity|by left|vm_compute; reflexivity].
Defined.

(** ** Capacity completeness *)

Lemma elem_of_consume_calls (set_order : gset string → list string)
    (σ : state) (apps : list App) (topo : Topology) (ev : event) :
  ev ∈ (consume_calls set_order σ apps topo).1 →
  ∃ r, consume_call (merged_pptc σ apps) (node_caps topo) (link_caps topo) r
         (resource_entries σ apps r) = Ok ev.
Proof.
  unfold consume_calls.
  destruct (calls_until_raise _ _) as [evs o] eqn:Hcalls. cbn.
  apply calls_until_raise_spec in Hcalls as (rs1 & rs2 & _ & Hall & _).
  intros Hev. induction Hall as [|r ev' rs evs Hr _ IH].
  - by apply elem_of_nil in Hev.
  - apply elem_of_cons in Hev as [->|Hev]; [by exists r|by apply IH].
Qed.

(** C7. The capacity map of every consume call made for a node-owned
    resource holds exactly the nodes of the topology that advertise the
    resource, each with the capacity it advertises; likewise with the links
    for a link-owned resource. *)
Theorem C7_capacity_map_exact
    (set_order resources_order : gset string → list string)
    (single_objective : list event → epoch_objs) (apps : list App)
    (topo : Topology) (network_config : option NetworkConfig)
    (epoch_mode : EpochComposition) (fairness : Fairness)
    (weights : option pyweights) (σ : state)
    (p : PPTC) (r : string) (cfs : list costfn)
    (capacities : gmap element Qc) (mode : owner) :
  EvConsume p r cfs capacities mode
  ∈ trace (compose_apps set_order resources_order single_objective apps topo
             network_config epoch_mode fairness weights σ).2 →
  (mode = NODES →
     ∀ e c, capacities !! e = Some c
            ↔ ∃ n, n ∈ nodes topo ∧ e = Node n
                   ∧ get_resources topo (Node n) !! r = Some c)
  ∧ (mode = LINKS →
       ∀ e c, capacities !! e = Some c
              ↔ ∃ u v, (u, v) ∈ links topo ∧ e = Link u v
                       ∧ get_resources topo (Link u v) !! r = Some c).
Proof.
  intros Hin.
  assert (Hfilter : EvConsume p r cfs capacities mode
                    ∈ (consume_calls set_order σ apps topo).1).
  { apply list_elem_of_In.
    eapply (proj1 (List.filter_In (is_consume_of r) _ _)).
    rewrite <- (trace_consume_calls set_order resources_order
                  single_objective apps topo network_config epoch_mode
                  fairness weights σ r).
    apply List.filter_In. split; [by apply list_elem_of_In|].
    cbn. by apply bool_decide_eq_true. }
  apply elem_of_consume_calls in Hfilter as (r' & Hcall).
  apply consume_call_Ok in Hcall as (m & _ & _ & [[-> Hev]|[-> Hev]]);
    injection Hev as -> -> -> -> ->.
  - split; [|done]. intros _ e c. apply lookup_node_capacities.
  - split; [done|]. intros _ e c. apply lookup_link_capacities.
Qed.

Lemma C7_witness :
  capacity_map Scenario.topo NODES "bw" !! Node 3 = Some (Qc_of_Z 7)
  ↔ ∃ n, n ∈ nodes Scenario.topo ∧ Node 3 = Node n
         ∧ get_resources Scenario.topo (Node n) !! "bw" = Some (Qc_of_Z 7).
Proof.
  destruct (C7_capacity_map_exact elements elements Scenario.answers
              [Scenario.appA; Scenario.appB] Scenario.topo None AVG WEIGHTED
              None Scenario.store
              (merged_pptc Scenario.store [Scenario.appA; Scenario.appB])
              "bw" [CostFn 0; CostFn 1]
              (capacity_map Scenario.topo NODES "bw") NODES)
    as [Hnodes _].
  - apply list_elem_of_In. vm_compute. right. left. reflexivity.
  - exact (Hnodes eq_refl (Node 3) (Qc_of_Z 7)).
Defined.


(** ** Capping *)

Lemma filter_cap_fmap (values : string → gmap element Qc) (rs : list string)
    (r : string) :
  NoDup rs →
  List.filter (is_cap_of r) ((λ r', EvCap r' (values r') None) <$> rs)
  = if decide (r ∈ rs) then [EvCap r (values r) None] else [].
Proof.
  induction rs as [|x rs IH]; [done|].
  intros [Hx Hnd]%NoDup_cons. cbn. rewrite (IH Hnd).
  destruct (decide (r ∈ rs)) as [Hin|Hnin];
    destruct (decide (r ∈ x :: rs)) as [Hin'|Hnin'];
    case_bool_decide as Hxr; subst; try done.
  all: try (exfalso; apply Hnin'; by right).
  all: try (exfalso; apply Hnin'; by left).
  apply elem_of_cons in Hin' as [?|?]; [by subst|done].
Qed.

(** C6. Without a network configuration, or with one that has no caps
    table, no capping request is made.  With a caps table, a completed
    composition has made exactly one capping request for every resource
    name of the table, with the cap values of that name and no restriction
    on the traffic classes, and none for any other name. *)
Theorem C6_capping_requests
    (set_order resources_order : gset string → list string)
    (single_objective : list event → epoch_objs) (apps : list App)
    (topo : Topology) (network_config : option NetworkConfig)
    (epoch_mode : EpochComposition) (fairness : Fairness)
    (weights : option pyweights) (σ : state) (r : string) :
  (∀ X, resources_order X ≡ₚ elements X) →
  let run := compose_apps set_order resources_order single_objective apps
               topo network_config epoch_mode fairness weights σ in
  ((network_config = None
    ∨ ∃ config, network_config = Some config ∧ get_caps config = None) →
   List.filter is_cap (trace run.2) = [])
  ∧ (∀ config c,
       network_config = Some config → get_caps config = Some c →
       run.1 = Ok tt →
       (∀ v, caps_table c !! r = Some v →
             List.filter (is_cap_of r) (trace run.2) = [EvCap r v None])
       ∧ (caps_table c !! r = None →
          List.filter (is_cap_of r) (trace run.2) = [])).
Proof.
  intros Hperm run. split.
  - intros Hnone. apply filter_none, Forall_forall. intros ev Hin.
    destruct (is_cap ev) eqn:Hcap; [|done]. exfalso.
    assert (Hk : kind_of ev = KCap) by (by destruct ev).
    pose proof (trace_cap_calls_incl set_order resources_order
                  single_objective apps topo network_config epoch_mode
                  fairness weights σ ev Hin Hk) as Hcalls.
    unfold cap_calls in Hcalls.
    destruct Hnone as [->|(config & -> & Hcaps)].
    + by apply elem_of_nil in Hcalls.
    + rewrite Hcaps in Hcalls. by apply elem_of_nil in Hcalls.
  - intros config c -> Hcaps Hok.
    assert (Hfilter :
      List.filter (is_cap_of r) (trace run.2)
      = if decide (r ∈ dom (caps_table c)) then [EvCap r (caps c r) None]
        else []).
    { unfold run.
      rewrite (trace_cap_calls set_order resources_order single_objective
                 apps topo (Some config) epoch_mode fairness weights σ
                 (is_cap_of r)); [|by intros []|done].
      unfold cap_calls, resources. rewrite Hcaps.
      rewrite filter_cap_fmap
        by (rewrite (Hperm (dom (caps_table c))); apply NoDup_elements).
      destruct (decide (r ∈ dom (caps_table c))) as [Hin|Hnin].
      - rewrite decide_True; [done|].
        by rewrite (Hperm (dom (caps_table c))), elem_of_elements.
      - rewrite decide_False; [done|].
        by rewrite (Hperm (dom (caps_table c))), elem_of_elements. }
    rewrite Hfilter. split.
    + intros v Hv. rewrite decide_True by (apply elem_of_dom; by eexists).
      unfold caps. by rewrite Hv.
    + intros Hv. rewrite decide_False; [done|]. by apply not_elem_of_dom.
Qed.

Lemma C6_witness :
  List.filter is_cap (trace (Scenario.run None None Scenario.store).2) = []
  ∧ List.filter (is_cap_of "bw")
      (trace (Scenario.run (Some Scenario.config) None Scenario.store).2)
    = [EvCap "bw" {[ Node 1 := Qc_of_Z 3 ]} None].
Proof.
  unfold Scenario.run. split.
  - destruct (C6_capping_requests elements elements Scenario.answers
                [Scenario.appA; Scenario.appB] Scenario.topo None AVG
                WEIGHTED None Scenario.store "bw") as [Hnone _].
    + intros X. reflexivity.
    + apply Hnone. left. reflexivity.
  - destruct (C6_capping_requests elements elements Scenario.answers
                [Scenario.appA; Scenario.appB] Scenario.topo
                (Some Scenario.config) AVG WEIGHTED None Scenario.store "bw")
      as [_ Hsome].
    + intros X. reflexivity.
    + destruct (Hsome Scenario.config
                  {| caps_table := {[ "bw" := {[ Node 1 := Qc_of_Z 3 ]} ]} |}
                  eq_refl eq_refl) as [Hone _].
      * vm_compute. reflexivity.
      * apply Hone. vm_compute. reflexivity.
Defined.

(** ** Objectives *)

Lemma calls_before_weights_kind
    (set_order resources_order : gset string → list string)
    (apps : list App) (topo : Topology)
    (network_config : option NetworkConfig) (σ : state) :
  Forall (λ ev, kind_of ev ≠ KSingleObjective
                ∧ kind_of ev ≠ KComposeObjectives)
    (calls_before_weights set_order resources_order apps topo network_config
       σ).
Proof.
  unfold calls_before_weights. constructor; [done|].
  repeat apply Forall_app_2.
  - eapply Forall_impl; [apply consume_calls_kind|]. by intros ? ->.
  - eapply Forall_impl; [apply cap_calls_kind|]. by intros ? ->.
  - eapply Forall_impl; [apply named_calls_kind|]. by intros ? ->.
Qed.

Lemma lookup_objective_kwargs (σ : state) (app : App) :
  objective_kwargs σ app !! "varname" = Some (PyStr (name app))
  ∧ objective_kwargs σ app !! "tcs" = Some (PyTcs (obj_tc app))
  ∧ ∀ k, k ≠ "varname" → k ≠ "tcs" →
         objective_kwargs σ app !! k = read_dict σ (obj app).2 !! k.
Proof.
  unfold objective_kwargs. split_and!.
  - apply lookup_union_Some_l. rewrite lookup_insert_ne by done.
    apply lookup_singleton_eq.
  - apply lookup_union_Some_l. apply lookup_insert_eq.
  - intros k Hv Ht. apply lookup_union_r.
    rewrite lookup_insert_ne by done. by rewrite lookup_singleton_ne.
Qed.

(** C8. When composition completes (the keyword options of the
    applications being allocated objects): the single-objective calls are,
    in input order, one per application, each with the objective kind and
    the positional arguments of its application and with its keyword
    options in which [varname] is the name of the application and [tcs] its
    objective traffic classes; the vectors returned are the rows, in input
    order, of the matrix passed by the one call of the final composition
    step, which is the last call and also carries the epoch mode, the
    fairness mode and the weights. *)
Theorem C8_objectives_composed
    (set_order resources_order : gset string → list string)
    (single_objective : list event → epoch_objs) (apps : list App)
    (topo : Topology) (network_config : option NetworkConfig)
    (epoch_mode : EpochComposition) (fairness : Fairness)
    (weights : option pyweights) (σ σ' : state) :
  (∀ app, app ∈ apps → (obj app).2 ∈ dom (st_dict σ)) →
  compose_apps set_order resources_order single_objective apps topo
    network_config epoch_mode fairness weights σ = (Ok tt, σ') →
  let calls :=
    (λ app, EvSingleObjective (obj app).1.1 (obj app).1.2
              (objective_kwargs σ app)) <$> apps in
  (∃ pre w,
     trace σ'
     = pre ++ calls
       ++ [EvComposeObjectives (objective_rows single_objective pre calls)
             epoch_mode fairness w]
     ∧ Forall (λ ev, kind_of ev ≠ KSingleObjective
                     ∧ kind_of ev ≠ KComposeObjectives) pre
     ∧ weights_used apps weights = Ok w)
  ∧ (∀ app,
       objective_kwargs σ app !! "varname" = Some (PyStr (name app))
       ∧ objective_kwargs σ app !! "tcs" = Some (PyTcs (obj_tc app))
       ∧ ∀ k, k ≠ "varname" → k ≠ "tcs" →
              objective_kwargs σ app !! k = read_dict σ (obj app).2 !! k).
Proof.
  intros Hwf Hrun calls. split; [|apply lookup_objective_kwargs].
  destruct (compose_apps_shape set_order resources_order single_objective
              apps topo network_config epoch_mode fairness weights σ)
    as (_ & _ & _ & Hshape).
  rewrite Hrun in Hshape. cbn [fst snd] in Hshape.
  destruct ((consume_calls set_order σ apps topo).2) as [e|];
    [by destruct Hshape|].
  destruct (weights_used apps weights) as [w|e]; [|by destruct Hshape].
  destruct Hshape as (_ & ocalls & rows & Htr & _ & Hexact).
  destruct (Hexact Hwf) as [-> ->].
  exists (calls_before_weights set_order resources_order apps topo
            network_config σ), w.
  split_and!; [done|apply calls_before_weights_kind|done].
Qed.

Lemma C8_witness :
  ∃ pre w,
    trace (Scenario.run None None Scenario.store).2
    = pre
      ++ [EvSingleObjective "minlatency" [PyInt 1]
            (objective_kwargs Scenario.store Scenario.appA);
          EvSingleObjective "maxflow" []
            (objective_kwargs Scenario.store Scenario.appB)]
      ++ [EvComposeObjectives
            [Scenario.answers
               (pre ++ [objective_call Scenario.store Scenario.appA]);
             Scenario.answers
               ((pre ++ [objective_call Scenario.store Scenario.appA])
                ++ [objective_call Scenario.store Scenario.appB])]
            AVG WEIGHTED w].
Proof.
  destruct (C8_objectives_composed elements elements Scenario.answers
              [Scenario.appA; Scenario.appB] Scenario.topo None AVG WEIGHTED
              None Scenario.store (Scenario.run None None Scenario.store).2)
    as [(pre & w & Htr & _) _].
  - intros app [->|[->|[]%elem_of_nil]%elem_of_cons]%elem_of_cons;
      vm_compute; reflexivity.
  - vm_compute. reflexivity.
  - exists pre, w. exact Htr.
Defined.


(** ** Weights *)

Lemma derived_weights_nonzero (apps : list App) :
  np_sum (volume <$> apps) ≠ 0%Qc →
  derived_weights apps
  = NDArray ((λ app, Finite (1 - volume app / np_sum (volume <$> apps))%Qc)
               <$> apps).
Proof.
  intros Htotal. unfold derived_weights. cbv zeta. f_equal.
  rewrite <- list_fmap_compose. apply list_fmap_ext. intros i app _. cbn.
  unfold np_div. by rewrite decide_False.
Qed.

(** C4. Without explicit weights, and the total volume not being zero, the
    weights passed to the final composition step are, in input order, one
    minus the volume of the application over the sum of all volumes; for
    volumes 10 and 30 they are 3/4 and 1/4. *)
Theorem C4_derived_weights
    (set_order resources_order : gset string → list string)
    (single_objective : list event → epoch_objs) (apps : list App)
    (topo : Topology) (network_config : option NetworkConfig)
    (epoch_mode : EpochComposition) (fairness : Fairness) (σ σ' : state) :
  compose_apps set_order resources_order single_objective apps topo
    network_config epoch_mode fairness None σ = (Ok tt, σ') →
  np_sum (volume <$> apps) ≠ 0%Qc →
  (∃ tr objs,
     trace σ'
     = tr ++ [EvComposeObjectives objs epoch_mode fairness
                (NDArray
                   ((λ app,
                       Finite (1 - volume app / np_sum (volume <$> apps))%Qc)
                      <$> apps))])
  ∧ (∀ a b, volume a = Qc_of_Z 10 → volume b = Qc_of_Z 30 →
            derived_weights [a; b]
            = NDArray [Finite (Q2Qc (3 # 4)); Finite (Q2Qc (1 # 4))]).
Proof.
  intros Hrun Htotal. split.
  - destruct (compose_apps_shape set_order resources_order single_objective
                apps topo network_config epoch_mode fairness None σ)
      as (_ & _ & _ & Hshape).
    rewrite Hrun in Hshape. cbn [fst snd weights_used] in Hshape.
    destruct ((consume_calls set_order σ apps topo).2) as [e|];
      [by destruct Hshape|].
    destruct Hshape as (_ & ocalls & rows & -> & _).
    rewrite derived_weights_nonzero by done.
    eexists (_ ++ ocalls), rows. by rewrite <- app_assoc.
  - intros a b Ha Hb. unfold derived_weights. cbn. rewrite Ha, Hb.
    vm_compute. reflexivity.
Qed.

Lemma C4_witness :
  ∃ tr objs,
    trace (Scenario.run None None Scenario.store).2
    = tr ++ [EvComposeObjectives objs AVG WEIGHTED
               (NDArray [Finite (Q2Qc (3 # 4)); Finite (Q2Qc (1 # 4))])].
Proof.
  destruct (C4_derived_weights elements elements Scenario.answers
              [Scenario.appA; Scenario.appB] Scenario.topo None AVG WEIGHTED
              Scenario.store (Scenario.run None None Scenario.store).2)
    as [(tr & objs & Htr) _].
  - vm_compute. reflexivity.
  - vm_compute. discriminate.
  - exists tr, objs. rewrite Htr. do 3 f_equal.
Defined.

(** What the range check does with explicit weights: a number passes when
    it lies in [0,1]; an array of two or more numbers raises, whatever its
    elements. *)
Lemma weights_used_scalar (apps : list App) (w : pyfloat) :
  weights_used apps (Some (Scalar w))
  = if np_le (Finite 0) w && np_le w (Finite 1) then Ok (Scalar w)
    else Raise AssertionError.
Proof. unfold weights_used. cbn. by destruct (_ && _). Qed.

Lemma weights_used_array (apps : list App) (ws : list pyfloat) :
  (2 ≤ length ws)%nat →
  weights_used apps (Some (NDArray ws)) = Raise ValueError.
Proof. destruct ws as [|w1 [|w2 ws]]; cbn; [lia|lia|done]. Qed.

(** C5 (the code departs from it). A vector of two weights that both lie in
    [0,1] is not accepted: the range check compares the array as a whole,
    and composition ends with the [ValueError] of an ambiguous truth
    value. *)
Theorem C5_valid_weight_vector_rejected :
  let ws := [Finite (Q2Qc (1 # 2)); Finite (Q2Qc (1 # 2))] in
  Forall (λ w, np_le (Finite 0) w = true ∧ np_le w (Finite 1) = true) ws
  ∧ (Scenario.run None (Some (NDArray ws)) Scenario.store).1
    = Raise ValueError.
Proof.
  cbv zeta. split.
  - repeat constructor.
  - vm_compute. reflexivity.
Qed.

(** ** Frame *)

(** C10. Composition leaves the objects of the store as they are: every
    path set and every keyword-option dictionary that was allocated before
    is unchanged, and so is every resource-cost table; in particular those
    of the applications.  (The keyword options are written to in a copy.) *)
Theorem C10_applications_unchanged
    (set_order resources_order : gset string → list string)
    (single_objective : list event → epoch_objs) (apps : list App)
    (topo : Topology) (network_config : option NetworkConfig)
    (epoch_mode : EpochComposition) (fairness : Fairness)
    (weights : option pyweights) (σ : state) :
  let σ' := (compose_apps set_order resources_order single_objective apps
               topo network_config epoch_mode fairness weights σ).2 in
  st_pptc σ ⊆ st_pptc σ'
  ∧ st_rcost σ' = st_rcost σ
  ∧ st_dict σ ⊆ st_dict σ'
  ∧ ∀ app,
      (pptc app ∈ dom (st_pptc σ) →
       read_pptc σ' (pptc app) = read_pptc σ (pptc app))
      ∧ read_rcost σ' (resource_cost app) = read_rcost σ (resource_cost app)
      ∧ ((obj app).2 ∈ dom (st_dict σ) →
         read_dict σ' (obj app).2 = read_dict σ (obj app).2).
Proof.
  intros σ'.
  destruct (compose_apps_shape set_order resources_order single_objective
              apps topo network_config epoch_mode fairness weights σ)
    as (Hpptc & Hrcost & Hdict & _).
  fold σ' in Hpptc, Hrcost, Hdict.
  assert (Hsub : st_pptc σ ⊆ st_pptc σ').
  { rewrite Hpptc. apply insert_subseteq, not_elem_of_dom, is_fresh. }
  split_and!; [done..|]. intros app. split_and!.
  - intros [p Hp]%elem_of_dom. unfold read_pptc.
    by rewrite Hp, (lookup_weaken _ _ _ _ Hp Hsub).
  - unfold read_rcost. by rewrite Hrcost.
  - intros [d Hd]%elem_of_dom. unfold read_dict.
    by rewrite Hd, (lookup_weaken _ _ _ _ Hd Hdict).
Qed.

Lemma C10_witness :
  read_pptc (Scenario.run None None Scenario.store).2 (pptc Scenario.appA)
  = Scenario.pathsA
  ∧ read_dict (Scenario.run None None Scenario.store).2
      (obj Scenario.appA).2
    = {[ "k" := PyInt 3 ]}.
Proof.
  destruct (C10_applications_unchanged elements elements Scenario.answers
              [Scenario.appA; Scenario.appB] Scenario.topo None AVG WEIGHTED
              None Scenario.store) as (_ & _ & _ & Happ).
  destruct (Happ Scenario.appA) as (Hp & _ & Hd). split.
  - etrans; [apply Hp|]; vm_compute; reflexivity.
  - etrans; [apply Hd|]; vm_compute; reflexivity.
Defined.


(** ** Ownership domains *)

Lemma run_consume_raise
    (set_order resources_order : gset string → list string)
    (single_objective : list event → epoch_objs) (apps : list App)
    (topo : Topology) (network_config : option NetworkConfig)
    (epoch_mode : EpochComposition) (fairness : Fairness)
    (weights : option pyweights) (σ : state) (e : exn) :
  (consume_calls set_order σ apps topo).2 = Some e →
  (compose_apps set_order resources_order single_objective apps topo
     network_config epoch_mode fairness weights σ).1 = Raise e.
Proof.
  intros Ho.
  destruct (compose_apps_shape set_order resources_order single_objective
              apps topo network_config epoch_mode fairness weights σ)
    as (_ & _ & _ & Hshape).
  rewrite Ho in Hshape. by destruct Hshape.
Qed.

(** The exception of a round names no resource: it is the assertion
    failure, or the configuration error for an owner that is not
    recognized. *)
Lemma round_raise_cases (σ : state) (apps : list App)
    (p : PPTC) (nc lc : gmap element (gmap string Qc))
    (r : string) (e : exn) :
  r ∈ resource_names σ apps →
  consume_call p nc lc r (resource_entries σ apps r) = Raise e →
  (e = AssertionError
   ∧ ∃ a b cfa ma cfb mb,
       a ∈ apps ∧ b ∈ apps ∧ declares σ a r cfa ma ∧ declares σ b r cfb mb
       ∧ ma ≠ mb)
  ∨ (∃ mode,
       (∃ app cf, app ∈ apps ∧ declares σ app r cf mode)
       ∧ (∀ app cf m, app ∈ apps → declares σ app r cf m → m = mode)
       ∧ ¬ recognized mode
       ∧ e = InvalidConfigException (ERR_UNKNOWN_MODE "resource owner" mode)).
Proof.
  intros Hr Hraise.
  apply consume_call_Raise in Hraise
    as [[Hnil _]|[[-> Hdiff]|(mode & [cf Hin] & Hall & Hunk & ->)]].
  - apply elem_of_resource_names in Hr as (app & Happ & Href).
    apply references_declares in Href as (cf & mode & Hdecl).
    assert (Hin : (cf, mode) ∈ resource_entries σ apps r).
    { apply elem_of_resource_entries. by exists app. }
    rewrite Hnil in Hin. by apply elem_of_nil in Hin.
  - left. split; [done|].
    destruct Hdiff as (cf1 & m1 & cf2 & m2 & H1 & H2 & Hne).
    apply elem_of_resource_entries in H1 as (a & Ha & Hda).
    apply elem_of_resource_entries in H2 as (b & Hb & Hdb).
    by exists a, b, cf1, m1, cf2, m2.
  - right. exists mode. split_and!; [| |done|done].
    + apply elem_of_resource_entries in Hin as (app & Happ & Hdecl).
      by exists app, cf.
    + intros app cf' m Happ Hdecl. apply (Hall cf').
      apply elem_of_resource_entries. by exists app.
Qed.

(** C1 (as the code has it). When two applications declare the same
    resource name with different ownership domains, composition fails and
    no consume call is made for that resource.  The failure is an assertion
    failure, which carries neither the resource name nor a domain value
    (or the configuration error of an unrecognized owner, when some
    declaration has one). *)
Theorem C1_domain_mismatch_fails
    (set_order resources_order : gset string → list string)
    (single_objective : list event → epoch_objs) (apps : list App)
    (topo : Topology) (network_config : option NetworkConfig)
    (epoch_mode : EpochComposition) (fairness : Fairness)
    (weights : option pyweights) (σ : state) (r : string) (a b : App)
    (cfa cfb : costfn) (ma mb : owner) :
  (∀ X, set_order X ≡ₚ elements X) →
  a ∈ apps → b ∈ apps →
  declares σ a r cfa ma → declares σ b r cfb mb → ma ≠ mb →
  let run := compose_apps set_order resources_order single_objective apps
               topo network_config epoch_mode fairness weights σ in
  ∃ e,
    run.1 = Raise e
    ∧ (e = AssertionError
       ∨ ∃ mode, ¬ recognized mode
                 ∧ e = InvalidConfigException
                         (ERR_UNKNOWN_MODE "resource owner" mode))
    ∧ ((∀ app r' cf mode, app ∈ apps → declares σ app r' cf mode →
                          recognized mode) →
       e = AssertionError)
    ∧ List.filter (is_consume_of r) (trace run.2) = [].
Proof.
  intros Hperm Ha Hb Hda Hdb Hne run.
  assert (Hr : r ∈ resource_names σ apps).
  { apply elem_of_resource_names. exists a. split; [done|].
    apply references_declares. by exists cfa, ma. }
  assert (Hround : ∃ e0,
    consume_call (merged_pptc σ apps) (node_caps topo) (link_caps topo) r
      (resource_entries σ apps r) = Raise e0).
  { destruct (consume_call _ _ _ _ _) as [ev|e0] eqn:Hcall; [|by exists e0].
    apply consume_call_Ok in Hcall as (mode & _ & Hall & _).
    exfalso. apply Hne.
    trans mode; [apply (Hall cfa)|symmetry; apply (Hall cfb)];
      apply elem_of_resource_entries; [by exists a|by exists b]. }
  destruct Hround as [e0 Hround].
  destruct (consume_calls_stop set_order Hperm σ apps topo r e0 Hr Hround)
    as [[e He] Hfilter].
  exists e. split_and!.
  - by apply run_consume_raise.
  - apply (consume_calls_raise set_order Hperm) in He as (r' & Hr' & Hraise).
    destruct (round_raise_cases _ _ _ _ _ _ _ Hr' Hraise)
      as [[-> _]|(mode & _ & _ & Hunk & ->)]; [by left|].
    right. by exists mode.
  - intros Hrec.
    apply (consume_calls_raise set_order Hperm) in He as (r' & Hr' & Hraise).
    destruct (round_raise_cases _ _ _ _ _ _ _ Hr' Hraise)
      as [[-> _]|(mode & (app & cf & Happ & Hdecl) & _ & Hunk & _)];
      [done|].
    destruct Hunk. by apply (Hrec app r' cf).
  - unfold run. by rewrite trace_consume_calls.
Qed.

Lemma C1_witness :
  (Scenario.run None None Scenario.store_mismatch).1 = Raise AssertionError
  ∧ List.filter (is_consume_of "r")
      (trace (Scenario.run None None Scenario.store_mismatch).2) = [].
Proof.
  destruct (C1_domain_mismatch_fails elements elements Scenario.answers
              [Scenario.appA; Scenario.appB] Scenario.topo None AVG WEIGHTED
              None Scenario.store_mismatch "r" Scenario.appA Scenario.appB
              (CostFn 0) (CostFn 1) NODES LINKS)
    as (e & He & _ & Hassert & Hfilter).
  - intros X. reflexivity.
  - by left.
  - right. by left.
  - vm_compute. reflexivity.
  - vm_compute. reflexivity.
  - discriminate.
  - split; [|exact Hfilter]. etrans; [exact He|]. f_equal. apply Hassert.
    intros app r' cf mode
      [->|[->|[]%elem_of_nil]%elem_of_cons]%elem_of_cons Hdecl;
      unfold declares, read_rcost in Hdecl; cbn in Hdecl.
    + rewrite lookup_insert_eq in Hdecl. cbn in Hdecl.
      apply lookup_singleton_Some in Hdecl as [_ [= _ <-]]. by left.
    + rewrite lookup_insert_ne, lookup_singleton_eq in Hdecl by done.
      cbn in Hdecl.
      apply lookup_singleton_Some in Hdecl as [_ [= _ <-]]. by right.
Defined.

(** As the specification states it the property does not hold: on a mismatch the
    failure is not a configuration error. *)
Lemma C1_counterexample :
  declares Scenario.store_mismatch Scenario.appA "r" (CostFn 0) NODES
  ∧ declares Scenario.store_mismatch Scenario.appB "r" (CostFn 1) LINKS
  ∧ (Scenario.run None None Scenario.store_mismatch).1 = Raise AssertionError
  ∧ ¬ ∃ msg, (Scenario.run None None Scenario.store_mismatch).1
             = Raise (InvalidConfigException msg).
Proof.
  assert (Hrun : (Scenario.run None None Scenario.store_mismatch).1
                 = Raise AssertionError) by (vm_compute; reflexivity).
  split_and!; [vm_compute; reflexivity..|exact Hrun|].
  intros [msg Hmsg]. rewrite Hrun in Hmsg. discriminate Hmsg.
Qed.


(** C9 (as the code has it). When the ownership domain a resource is
    consistently declared with is neither nodes nor links, composition
    fails and no consume call is made for that resource.  When every other
    resource is declared consistently with a recognized domain, the failure
    is the configuration error whose message is the unknown-mode template
    applied to the label "resource owner" and the bad domain value; the
    resource name is not part of it. *)
Theorem C9_unknown_domain_fails
    (set_order resources_order : gset string → list string)
    (single_objective : list event → epoch_objs) (apps : list App)
    (topo : Topology) (network_config : option NetworkConfig)
    (epoch_mode : EpochComposition) (fairness : Fairness)
    (weights : option pyweights) (σ : state) (r : string) (mode : owner) :
  (∀ X, set_order X ≡ₚ elements X) →
  (∃ app, app ∈ apps ∧ references σ app r) →
  (∀ app cf m, app ∈ apps → declares σ app r cf m → m = mode) →
  ¬ recognized mode →
  let run := compose_apps set_order resources_order single_objective apps
               topo network_config epoch_mode fairness weights σ in
  ∃ e,
    run.1 = Raise e
    ∧ (e = AssertionError
       ∨ ∃ mode', ¬ recognized mode'
                  ∧ e = InvalidConfigException
                          (ERR_UNKNOWN_MODE "resource owner" mode'))
    ∧ ((∀ r' app cf m, r' ≠ r → app ∈ apps → declares σ app r' cf m →
          recognized m
          ∧ ∀ app' cf' m', app' ∈ apps → declares σ app' r' cf' m' → m' = m) →
       e = InvalidConfigException (ERR_UNKNOWN_MODE "resource owner" mode))
    ∧ List.filter (is_consume_of r) (trace run.2) = [].
Proof.
  intros Hperm Href Hall Hunk run.
  assert (Hr : r ∈ resource_names σ apps) by by apply elem_of_resource_names.
  assert (Hround : ∃ e0,
    consume_call (merged_pptc σ apps) (node_caps topo) (link_caps topo) r
      (resource_entries σ apps r) = Raise e0).
  { destruct (consume_call _ _ _ _ _) as [ev|e0] eqn:Hcall; [|by exists e0].
    apply consume_call_Ok in Hcall as (m & [cf Hin] & _ & Hm).
    apply elem_of_resource_entries in Hin as (app & Happ & Hdecl).
    rewrite (Hall app cf m Happ Hdecl) in Hm.
    exfalso. apply Hunk. destruct Hm as [[-> _]|[-> _]]; [by left|by right]. }
  destruct Hround as [e0 Hround].
  destruct (consume_calls_stop set_order Hperm σ apps topo r e0 Hr Hround)
    as [[e He] Hfilter].
  exists e. split_and!.
  - by apply run_consume_raise.
  - apply (consume_calls_raise set_order Hperm) in He as (r' & Hr' & Hraise).
    destruct (round_raise_cases _ _ _ _ _ _ _ Hr' Hraise)
      as [[-> _]|(mode' & _ & _ & Hunk' & ->)]; [by left|].
    right. by exists mode'.
  - intros Hothers.
    apply (consume_calls_raise set_order Hperm) in He as (r' & Hr' & Hraise).
    destruct (round_raise_cases _ _ _ _ _ _ _ Hr' Hraise)
      as [[-> (a & b & cfa & ma & cfb & mb & Ha & Hb & Hda & Hdb & Hne)]
         |(mode' & (app & cf & Happ & Hdecl) & _ & Hunk' & ->)].
    + exfalso. apply Hne. destruct (decide (r' = r)) as [->|Hr'r].
      * by rewrite (Hall a cfa ma), (Hall b cfb mb).
      * destruct (Hothers r' a cfa ma Hr'r Ha Hda) as [_ Hsame].
        symmetry. by apply (Hsame b cfb).
    + destruct (decide (r' = r)) as [->|Hr'r].
      * by rewrite (Hall app cf mode' Happ Hdecl).
      * destruct (Hothers r' app cf mode' Hr'r Happ Hdecl) as [Hrec _].
        by destruct Hunk'.
  - unfold run. by rewrite trace_consume_calls.
Qed.

Lemma C9_witness :
  (Scenario.run None None (Scenario.store_unknown "cpu")).1
  = Raise (InvalidConfigException
             (ERR_UNKNOWN_MODE "resource owner" (OtherOwner "paths")))
  ∧ List.filter (is_consume_of "cpu")
      (trace (Scenario.run None None (Scenario.store_unknown "cpu")).2) = [].
Proof.
  assert (Hdecl : ∀ app r' cf m,
    app ∈ [Scenario.appA; Scenario.appB] →
    declares (Scenario.store_unknown "cpu") app r' cf m →
    r' = "cpu" ∧ m = OtherOwner "paths").
  { intros app r' cf m
      [->|[->|[]%elem_of_nil]%elem_of_cons]%elem_of_cons Hdecl;
      unfold declares, read_rcost in Hdecl; cbn in Hdecl.
    - rewrite lookup_insert_eq in Hdecl. cbn in Hdecl.
      by apply lookup_singleton_Some in Hdecl as [<- [= _ <-]].
    - rewrite lookup_insert_ne, lookup_singleton_eq in Hdecl by done.
      cbn in Hdecl.
      by apply lookup_singleton_Some in Hdecl as [<- [= _ <-]]. }
  destruct (C9_unknown_domain_fails elements elements Scenario.answers
              [Scenario.appA; Scenario.appB] Scenario.topo None AVG WEIGHTED
              None (Scenario.store_unknown "cpu") "cpu" (OtherOwner "paths"))
    as (e & He & _ & Hconfig & Hfilter).
  - intros X. reflexivity.
  - exists Scenario.appA. split; [by left|]. vm_compute. by eexists.
  - intros app cf m Happ Hd.
    destruct (Hdecl app "cpu" cf m Happ Hd) as [_ Hm]. exact Hm.
  - intros [Hrec|Hrec]; discriminate Hrec.
  - split; [|exact Hfilter]. etrans; [exact He|]. f_equal. apply Hconfig.
    intros r' app cf m Hne Happ Hd.
    destruct (Hdecl app r' cf m Happ Hd) as [Hcpu _].
    exfalso. apply Hne. exact Hcpu.
Defined.

(** As the specification states it the property does not hold: the exception is the
    same whichever resource has the unrecognized domain, so the resource
    name cannot be read off it. *)
Lemma C9_counterexample :
  (Scenario.run None None (Scenario.store_unknown "cpu")).1
  = Raise (InvalidConfigException
             (ERR_UNKNOWN_MODE "resource owner" (OtherOwner "paths")))
  ∧ (Scenario.run None None (Scenario.store_unknown "mem")).1
    = Raise (InvalidConfigException
               (ERR_UNKNOWN_MODE "resource owner" (OtherOwner "paths")))
  ∧ ¬ ∃ name_of : exn → string,
        ∀ r, ∃ e, (Scenario.run None None (Scenario.store_unknown r)).1
                  = Raise e
                  ∧ name_of e = r.
Proof.
  assert (Hcpu : (Scenario.run None None (Scenario.store_unknown "cpu")).1
                 = Raise (InvalidConfigException
                            (ERR_UNKNOWN_MODE "resource owner"
                               (OtherOwner "paths"))))
    by (vm_compute; reflexivity).
  assert (Hmem : (Scenario.run None None (Scenario.store_unknown "mem")).1
                 = Raise (InvalidConfigException
                            (ERR_UNKNOWN_MODE "resource owner"
                               (OtherOwner "paths"))))
    by (vm_compute; reflexivity).
  split; [exact Hcpu|]. split; [exact Hmem|].
  intros (name_of & Hname).
  destruct (Hname "cpu") as (e1 & He1 & Hn1).
  destruct (Hname "mem") as (e2 & He2 & Hn2).
  rewrite Hcpu in He1. rewrite Hmem in He2.
  injection He1 as <-. injection He2 as <-.
  rewrite Hn1 in Hn2. discriminate Hn2.
Qed.


(** * Further properties of the composition *)

(** ** When composition completes *)

Lemma consume_loop_completes (set_order : gset string → list string)
    (σ : state) (apps : list App) (topo : Topology) :
  (∀ X, set_order X ≡ₚ elements X) →
  (consume_calls set_order σ apps topo).2 = None ↔ well_declared σ apps.
Proof.
  intros Hperm. split.
  - intros Hnone r a b cfa ma cfb mb Ha Hb Hda Hdb.
    assert (Hr : r ∈ resource_names σ apps).
    { apply elem_of_resource_names. exists a. split; [done|].
      apply references_declares. by exists cfa, ma. }
    destruct (consume_calls_complete set_order Hperm σ apps topo r Hnone Hr)
      as (ev & Hev & _).
    apply consume_call_Ok in Hev as (mode & _ & Hall & Hmode).
    assert (Hma : ma = mode).
    { apply (Hall cfa), elem_of_resource_entries. by exists a. }
    assert (Hmb : mb = mode).
    { apply (Hall cfb), elem_of_resource_entries. by exists b. }
    subst ma mb. split; [done|].
    destruct Hmode as [[-> _]|[-> _]]; [by left|by right].
  - intros Hwell.
    destruct ((consume_calls set_order σ apps topo).2) as [e|] eqn:Ho; [|done].
    exfalso.
    apply (consume_calls_raise set_order Hperm) in Ho as (r & Hr & Hraise).
    destruct (round_raise_cases _ _ _ _ _ _ _ Hr Hraise)
      as [[_ (a & b & cfa & ma & cfb & mb & Ha & Hb & Hda & Hdb & Hne)]
         |(mode & (app & cf & Happ & Hdecl) & _ & Hunk & _)].
    + by destruct (Hwell r a b cfa ma cfb mb Ha Hb Hda Hdb).
    + by destruct (Hwell r app app cf mode cf mode Happ Happ Hdecl Hdecl).
Qed.

Lemma weights_used_Ok (apps : list App) (weights : option pyweights) :
  (∃ w, weights_used apps weights = Ok w) ↔ weights_accepted weights.
Proof.
  unfold weights_used, weights_accepted. destruct weights as [w|].
  - destruct (weights_in_range w) as [[|]|e]; split;
      try done; try (by intros [? ?]). by eexists.
  - split; [done|]. by eexists.
Qed.

Lemma run_completes_iff
    (set_order resources_order : gset string → list string)
    (single_objective : list event → epoch_objs) (apps : list App)
    (topo : Topology) (network_config : option NetworkConfig)
    (epoch_mode : EpochComposition) (fairness : Fairness)
    (weights : option pyweights) (σ : state) :
  (∀ X, set_order X ≡ₚ elements X) →
  (compose_apps set_order resources_order single_objective apps topo
     network_config epoch_mode fairness weights σ).1 = Ok tt
  ↔ well_declared σ apps ∧ weights_accepted weights.
Proof.
  intros Hperm.
  rewrite <- (consume_loop_completes set_order σ apps topo Hperm).
  rewrite <- (weights_used_Ok apps weights).
  destruct (compose_apps_shape set_order resources_order single_objective
              apps topo network_config epoch_mode fairness weights σ)
    as (_ & _ & _ & Hshape).
  destruct ((consume_calls set_order σ apps topo).2) as [e|].
  { destruct Hshape as [-> _]. split; [done|]. by intros [? _]. }
  destruct (weights_used apps weights) as [w|e].
  - destruct Hshape as [-> _]. split; [|done]. intros _. split; [done|].
    by exists w.
  - destruct Hshape as [-> _]. split; [done|]. by intros [_ [? ?]].
Qed.




(** ** Exceptions *)





(** ** What a failure leaves behind *)





(** X5. The range check on explicit weights comes after all constraints:
    when the declarations are in order and the weights are rejected,
    [compose_apps] raises the exception of the check, and by then the
    constructor call, every consume call, every capping request and every
    named-constraint call have been made, and nothing else. *)
Theorem X5_weights_checked_after_constraints
    (set_order resources_order : gset string → list string)
    (single_objective : list event → epoch_objs) (apps : list App)
    (topo : Topology) (network_config : option NetworkConfig)
    (epoch_mode : EpochComposition) (fairness : Fairness)
    (w : pyweights) (σ : state) :
  (∀ X, set_order X ≡ₚ elements X) →
  well_declared σ apps →
  weights_in_range w ≠ Ok true →
  let run := compose_apps set_order resources_order single_objective apps
               topo network_config epoch_mode fairness (Some w) σ in
  run.1 = Raise (match weights_in_range w with
                 | Raise e => e
                 | Ok _ => AssertionError
                 end)
  ∧ trace run.2
    = EvInit (nodes topo) (links topo) (merged_pptc σ apps)
      :: (consume_calls set_order σ apps topo).1
      ++ cap_calls resources_order network_config
      ++ (EvNamedConstraints <$> apps)
  ∧ length (consume_calls set_order σ apps topo).1
    = size (resource_names σ apps).
Proof.
  intros Hperm Hwell Hrej run.
  apply (consume_loop_completes set_order σ apps topo Hperm) in Hwell.
  destruct (compose_apps_shape set_order resources_order single_objective
              apps topo network_config epoch_mode fairness (Some w) σ)
    as (_ & _ & _ & Hshape).
  fold run in Hshape. rewrite Hwell in Hshape.
  cbn [weights_used] in Hshape. split_and!.
  - destruct (weights_in_range w) as [[|]|e]; [done|by destruct Hshape..].
  - destruct (weights_in_range w) as [[|]|e]; [done|by destruct Hshape..].
  - unfold consume_calls in *.
    destruct (calls_until_raise _ _) as [evs o] eqn:Hcalls.
    cbn in Hwell. subst o. cbn.
    apply calls_until_raise_spec in Hcalls as (rs1 & rs2 & Hrs & Hall & ->).
    rewrite app_nil_r in Hrs. subst rs1.
    rewrite <- (Forall2_length _ _ _ Hall).
    by rewrite (Hperm (resource_names σ apps)).
Qed.

Lemma X5_witness :
  (Scenario.run None
     (Some (NDArray [Finite (Q2Qc (1 # 2)); Finite (Q2Qc (1 # 2))]))
     Scenario.store).1 = Raise ValueError
  ∧ length (consume_calls elements Scenario.store
              [Scenario.appA; Scenario.appB] Scenario.topo).1 = 1%nat.
Proof.
  unfold Scenario.run.
  destruct (X5_weights_checked_after_constraints elements elements
              Scenario.answers [Scenario.appA; Scenario.appB] Scenario.topo
              None AVG WEIGHTED
              (NDArray [Finite (Q2Qc (1 # 2)); Finite (Q2Qc (1 # 2))])
              Scenario.store) as (Hraise & _ & Hlen).
  - intros X. reflexivity.
  - apply (consume_loop_completes elements Scenario.store
             [Scenario.appA; Scenario.appB] Scenario.topo);
      [intros X; reflexivity|]. vm_compute. reflexivity.
  - vm_compute. discriminate.
  - split; [exact Hraise|]. etrans; [exact Hlen|]. vm_compute. reflexivity.
Defined.

(** ** Named constraints and the order of the calls *)

Lemma objectives_count (single_objective : list event → epoch_objs)
    (apps : list App) (σ : state) :
  ∃ rows h evs,
    mapM (add_objective single_objective) apps σ
    = (Ok rows, with_trace (with_dict σ h) (trace σ ++ evs))
    ∧ length rows = length apps
    ∧ kind_of <$> evs = replicate (length apps) KSingleObjective.
Proof.
  revert σ. induction apps as [|a apps IH]; intros σ.
  - exists [], (st_dict σ), []. split_and!; [|done|done].
    cbn. rewrite app_nil_r. by destruct σ.
  - cbn [mapM]. rewrite bind_run, add_objective_run.
    set (σ1 := with_trace _ _).
    destruct (IH σ1) as (rows & h & evs & Hrun & Hrows & Hevs).
    rewrite bind_run, Hrun. cbn.
    eexists _, h, (_ :: evs). split_and!.
    + unfold with_trace, with_dict. cbn. by rewrite <- app_assoc.
    + cbn. by rewrite Hrows.
    + cbn. by rewrite Hevs.
Qed.

Lemma completed_trace
    (set_order resources_order : gset string → list string)
    (single_objective : list event → epoch_objs) (apps : list App)
    (topo : Topology) (network_config : option NetworkConfig)
    (epoch_mode : EpochComposition) (fairness : Fairness)
    (weights : option pyweights) (σ : state) :
  let run := compose_apps set_order resources_order single_objective apps
               topo network_config epoch_mode fairness weights σ in
  run.1 = Ok tt →
  (consume_calls set_order σ apps topo).2 = None
  ∧ ∃ ocalls rows w,
      trace run.2
      = EvInit (nodes topo) (links topo) (merged_pptc σ apps)
        :: (consume_calls set_order σ apps topo).1
        ++ cap_calls resources_order network_config
        ++ (EvNamedConstraints <$> apps)
        ++ ocalls
        ++ [EvComposeObjectives rows epoch_mode fairness w]
      ∧ weights_used apps weights = Ok w
      ∧ length rows = length apps
      ∧ kind_of <$> ocalls = replicate (length apps) KSingleObjective.
Proof.
  intros run Hok. unfold run in *. rewrite compose_apps_run in *.
  destruct (consume_calls set_order σ apps topo) as [evs [e|]];
    [done|]. cbn [fst snd] in *. split; [done|].
  destruct (weights_used apps weights) as [w|e]; [|done].
  destruct (objectives_count single_objective apps
              (with_trace (merged_state σ apps)
                 ((EvInit (nodes topo) (links topo) (merged_pptc σ apps)
                   :: evs)
                  ++ cap_calls resources_order network_config
                  ++ (EvNamedConstraints <$> apps))))
    as (rows & h & ocalls & Hrun & Hrows & Hkinds).
  rewrite Hrun. cbn. exists ocalls, rows, w.
  split_and!; [|done..]. by rewrite <- !app_assoc.
Qed.

Lemma completed_last_call
    (set_order resources_order : gset string → list string)
    (single_objective : list event → epoch_objs) (apps : list App)
    (topo : Topology) (network_config : option NetworkConfig)
    (epoch_mode : EpochComposition) (fairness : Fairness)
    (weights : option pyweights) (σ : state) :
  let run := compose_apps set_order resources_order single_objective apps
               topo network_config epoch_mode fairness weights σ in
  run.1 = Ok tt →
  ∃ tr rows w,
    trace run.2 = tr ++ [EvComposeObjectives rows epoch_mode fairness w]
    ∧ weights_used apps weights = Ok w
    ∧ length rows = length apps.
Proof.
  intros run Hok.
  destruct (completed_trace set_order resources_order single_objective apps
              topo network_config epoch_mode fairness weights σ Hok)
    as (_ & ocalls & rows & w & Htr & Hw & Hrows & _).
  exists (EvInit (nodes topo) (links topo) (merged_pptc σ apps)
          :: (consume_calls set_order σ apps topo).1
          ++ cap_calls resources_order network_config
          ++ (EvNamedConstraints <$> apps) ++ ocalls), rows, w.
  split_and!; [|exact Hw|exact Hrows].
  etrans; [exact Htr|]. rewrite <- app_comm_cons. f_equal.
  rewrite <- !app_assoc. reflexivity.
Qed.

(** X6. When composition completes, the named constraints of every
    application have been added exactly once, in input order, each call
    being passed the application itself. *)
Theorem X6_named_constraints_once_per_app
    (set_order resources_order : gset string → list string)
    (single_objective : list event → epoch_objs) (apps : list App)
    (topo : Topology) (network_config : option NetworkConfig)
    (epoch_mode : EpochComposition) (fairness : Fairness)
    (weights : option pyweights) (σ σ' : state) :
  compose_apps set_order resources_order single_objective apps topo
    network_config epoch_mode fairness weights σ = (Ok tt, σ') →
  List.filter is_named_constraints (trace σ') = EvNamedConstraints <$> apps.
Proof.
  intros Hrun.
  destruct (completed_trace set_order resources_order single_objective apps
              topo network_config epoch_mode fairness weights σ)
    as (_ & ocalls & rows & w & Htr & _ & _ & Hkinds).
  { by rewrite Hrun. }
  rewrite Hrun in Htr. cbn in Htr. rewrite Htr.
  cbn [List.filter is_named_constraints]. rewrite !List.filter_app.
  rewrite (filter_kind_none _ KConsume (consume_calls _ _ _ _).1);
    [|by intros []|apply consume_calls_kind].
  rewrite (filter_kind_none _ KCap (cap_calls _ _));
    [|by intros []|apply cap_calls_kind].
  rewrite (filter_kind_none _ KSingleObjective ocalls); [|by intros []|].
  2:{ apply Forall_forall. intros ev Hin.
      assert (Hk : kind_of ev ∈ kind_of <$> ocalls).
      { apply list_elem_of_fmap. by exists ev. }
      rewrite Hkinds in Hk. by apply elem_of_replicate in Hk as [? _]. }
  assert (Hnamed : List.filter is_named_constraints
                     (EvNamedConstraints <$> apps)
                   = EvNamedConstraints <$> apps).
  { clear. induction apps as [|a apps IH]; [done|]. cbn. by rewrite IH. }
  rewrite Hnamed. cbn. by rewrite app_nil_r.
Qed.


Lemma X6_witness :
  List.filter is_named_constraints
    (trace (Scenario.run None None Scenario.store).2)
  = [EvNamedConstraints Scenario.appA; EvNamedConstraints Scenario.appB].
Proof.
  unfold Scenario.run.
  apply (X6_named_constraints_once_per_app elements elements
           Scenario.answers [Scenario.appA; Scenario.appB] Scenario.topo
           None AVG WEIGHTED None Scenario.store).
  vm_compute. reflexivity.
Defined.

Lemma cap_calls_length (resources_order : gset string → list string)
    (network_config : option NetworkConfig) :
  (∀ X, resources_order X ≡ₚ elements X) →
  length (cap_calls resources_order network_config)
  = size (capped_names network_config).
Proof.
  intros Hperm. unfold cap_calls, capped_names, resources.
  destruct network_config as [[[c|]]|]; try done. cbn.
  by rewrite length_fmap, (Hperm (dom (caps_table c))).
Qed.

Lemma fmap_kind_replicate (k : call_kind) (l : list event) :
  Forall (λ ev, kind_of ev = k) l → kind_of <$> l = replicate (length l) k.
Proof. induction 1 as [|ev l Hev _ IH]; [done|]. cbn. by rewrite Hev, IH. Qed.

(** X7. The order of the calls of a completed composition: the constructor
    first; then one consume call per collected resource name; then one
    capping request per name of the caps table; then one named-constraint
    call per application; then one single-objective call per application;
    and the final composition step last, with a matrix of one row per
    application. *)
Theorem X7_order_of_calls
    (set_order resources_order : gset string → list string)
    (single_objective : list event → epoch_objs) (apps : list App)
    (topo : Topology) (network_config : option NetworkConfig)
    (epoch_mode : EpochComposition) (fairness : Fairness)
    (weights : option pyweights) (σ σ' : state) :
  (∀ X, set_order X ≡ₚ elements X) →
  (∀ X, resources_order X ≡ₚ elements X) →
  compose_apps set_order resources_order single_objective apps topo
    network_config epoch_mode fairness weights σ = (Ok tt, σ') →
  kind_of <$> trace σ'
  = [KInit]
    ++ replicate (size (resource_names σ apps)) KConsume
    ++ replicate (size (capped_names network_config)) KCap
    ++ replicate (length apps) KNamedConstraints
    ++ replicate (length apps) KSingleObjective
    ++ [KComposeObjectives]
  ∧ ∃ tr rows w,
      trace σ' = tr ++ [EvComposeObjectives rows epoch_mode fairness w]
      ∧ length rows = length apps.
Proof.
  intros Hset Hres Hrun.
  assert (Hok : (compose_apps set_order resources_order single_objective apps
                   topo network_config epoch_mode fairness weights σ).1
                = Ok tt) by (rewrite Hrun; reflexivity).
  split; cycle 1.
  { destruct (completed_last_call set_order resources_order single_objective
                apps topo network_config epoch_mode fairness weights σ Hok)
      as (tr & rows & w & Htr & _ & Hrows).
    rewrite Hrun in Htr. exists tr, rows, w. split; [exact Htr|exact Hrows]. }
  destruct (completed_trace set_order resources_order single_objective apps
              topo network_config epoch_mode fairness weights σ Hok)
    as (Hnone & ocalls & rows & w & Htr & _ & Hrows & Hkinds).
  rewrite Hrun in Htr. cbn [snd] in Htr. rewrite Htr. clear Hrun Hok Htr.
  rewrite fmap_cons, !fmap_app. cbn [app]. f_equal.
  rewrite (fmap_kind_replicate KConsume) by apply consume_calls_kind.
  rewrite (fmap_kind_replicate KCap) by apply cap_calls_kind.
  rewrite (fmap_kind_replicate KNamedConstraints) by apply named_calls_kind.
  rewrite Hkinds, length_fmap, (cap_calls_length _ _ Hres).
  do 2 f_equal.
  unfold consume_calls in *.
  destruct (calls_until_raise _ _) as [evs o] eqn:Hcalls.
  cbn in Hnone. subst o. cbn.
  apply calls_until_raise_spec in Hcalls as (rs1 & rs2 & Hrs & Hall & ->).
  rewrite app_nil_r in Hrs. subst rs1.
  rewrite <- (Forall2_length _ _ _ Hall).
  by rewrite (Hset (resource_names σ apps)).
Qed.

Lemma X7_witness :
  kind_of <$> trace (Scenario.run (Some Scenario.config) None Scenario.store).2
  = [KInit; KConsume; KCap; KNamedConstraints; KNamedConstraints;
     KSingleObjective; KSingleObjective; KComposeObjectives].
Proof.
  unfold Scenario.run.
  destruct (X7_order_of_calls elements elements Scenario.answers
              [Scenario.appA; Scenario.appB] Scenario.topo
              (Some Scenario.config) AVG WEIGHTED None Scenario.store
              (compose_apps elements elements Scenario.answers
                 [Scenario.appA; Scenario.appB] Scenario.topo
                 (Some Scenario.config) AVG WEIGHTED None Scenario.store).2)
    as [Hkinds _].
  - intros X. reflexivity.
  - intros X. reflexivity.
  - vm_compute. reflexivity.
  - etrans; [exact Hkinds|]. vm_compute. reflexivity.
Defined.

(** ** Independence of the enumeration orders *)

(** X8. Whether composition completes does not depend on the order in
    which the set of resource names and the caps table are enumerated; and
    two completed runs that differ only in these orders make, for every
    resource name, the same consume calls and the same capping requests. *)
Theorem X8_enumeration_order_irrelevant
    (set_order1 resources_order1 set_order2 resources_order2
       : gset string → list string)
    (single_objective : list event → epoch_objs) (apps : list App)
    (topo : Topology) (network_config : option NetworkConfig)
    (epoch_mode : EpochComposition) (fairness : Fairness)
    (weights : option pyweights) (σ : state) (r : string) :
  (∀ X, set_order1 X ≡ₚ elements X) →
  (∀ X, set_order2 X ≡ₚ elements X) →
  (∀ X, resources_order1 X ≡ₚ elements X) →
  (∀ X, resources_order2 X ≡ₚ elements X) →
  let run1 := compose_apps set_order1 resources_order1 single_objective apps
                topo network_config epoch_mode fairness weights σ in
  let run2 := compose_apps set_order2 resources_order2 single_objective apps
                topo network_config epoch_mode fairness weights σ in
  (run1.1 = Ok tt ↔ run2.1 = Ok tt)
  ∧ (run1.1 = Ok tt →
     List.filter (is_consume_of r) (trace run1.2)
     = List.filter (is_consume_of r) (trace run2.2)
     ∧ List.filter (is_cap_of r) (trace run1.2)
       = List.filter (is_cap_of r) (trace run2.2)).
Proof.
  intros H1 H2 Hr1 Hr2 run1 run2.
  assert (Hiff : run1.1 = Ok tt ↔ run2.1 = Ok tt).
  { unfold run1, run2.
    by rewrite (run_completes_iff set_order1 _ _ _ _ _ _ _ _ _ H1),
         (run_completes_iff set_order2 _ _ _ _ _ _ _ _ _ H2). }
  split; [done|]. intros Hok1. pose proof (proj1 Hiff Hok1) as Hok2. split.
  - unfold run1, run2. rewrite !trace_consume_calls.
    pose proof (run_Ok_consume_calls _ _ _ _ _ _ _ _ _ _ Hok1) as Hn1.
    pose proof (run_Ok_consume_calls _ _ _ _ _ _ _ _ _ _ Hok2) as Hn2.
    destruct (decide (r ∈ resource_names σ apps)) as [Hr|Hr].
    + destruct (consume_calls_complete set_order1 H1 σ apps topo r Hn1 Hr)
        as (ev1 & Hev1 & ->).
      destruct (consume_calls_complete set_order2 H2 σ apps topo r Hn2 Hr)
        as (ev2 & Hev2 & ->).
      congruence.
    + destruct (consume_calls_cases set_order1 H1 σ apps topo r)
        as [->|(? & _ & ? & _)]; [|done].
      destruct (consume_calls_cases set_order2 H2 σ apps topo r)
        as [->|(? & _ & ? & _)]; done.
  - unfold run1, run2.
    rewrite !(trace_cap_calls _ _ _ _ _ _ _ _ _ _ (is_cap_of r))
      by (done || by intros []).
    unfold cap_calls, resources.
    destruct network_config as [[[c|]]|]; try done. cbn [get_caps].
    rewrite !filter_cap_fmap
      by (rewrite ?(Hr1 (dom (caps_table c))), ?(Hr2 (dom (caps_table c)));
          apply NoDup_elements).
    destruct (decide (r ∈ resources_order1 (dom (caps_table c))))
      as [Hin1|Hin1];
      destruct (decide (r ∈ resources_order2 (dom (caps_table c))))
        as [Hin2|Hin2]; try done; exfalso;
      rewrite (Hr1 (dom (caps_table c))) in Hin1;
      rewrite (Hr2 (dom (caps_table c))) in Hin2; done.
Qed.

Lemma X8_witness :
  List.filter (is_consume_of "bw")
    (trace (Scenario.run None None Scenario.store).2)
  = List.filter (is_consume_of "bw")
      (trace (compose_apps (λ X, reverse (elements X))
                (λ X, reverse (elements X)) Scenario.answers
                [Scenario.appA; Scenario.appB] Scenario.topo None AVG
                WEIGHTED None Scenario.store).2).
Proof.
  unfold Scenario.run.
  destruct (X8_enumeration_order_irrelevant elements elements
              (λ X, reverse (elements X)) (λ X, reverse (elements X))
              Scenario.answers [Scenario.appA; Scenario.appB] Scenario.topo
              None AVG WEIGHTED None Scenario.store "bw") as [_ Hsame].
  - intros X. reflexivity.
  - intros X. apply reverse_Permutation.
  - intros X. reflexivity.
  - intros X. apply reverse_Permutation.
  - destruct Hsame as [Hcons _]; [vm_compute; reflexivity|exact Hcons].
Defined.


(** ** Derived weights *)

Lemma np_sum_nonneg (vs : list Qc) :
  Forall (λ v, 0 ≤ v)%Qc vs → (0 ≤ np_sum vs)%Qc.
Proof.
  induction 1 as [|v vs Hv _ IH]; [done|]. cbn.
  by apply Qcplus_nonneg_nonneg.
Qed.

Lemma np_sum_elem_le (vs : list Qc) (v : Qc) :
  Forall (λ v, 0 ≤ v)%Qc vs → v ∈ vs → (v ≤ np_sum vs)%Qc.
Proof.
  induction 1 as [|x vs Hx Hvs IH]; [by intros ?%elem_of_nil|].
  intros [->|Hin]%elem_of_cons; cbn.
  - rewrite <- (Qcplus_0_r x) at 1. apply Qcplus_le_mono_l.
    by apply np_sum_nonneg.
  - etrans; [by apply IH|].
    rewrite <- (Qcplus_0_l (np_sum vs)) at 1. by apply Qcplus_le_mono_r.
Qed.

Lemma one_minus_range (q : Qc) :
  (0 ≤ q)%Qc → (q ≤ 1)%Qc → (0 ≤ 1 - q)%Qc ∧ (1 - q ≤ 1)%Qc.
Proof.
  intros H0 H1. split.
  - apply (proj1 (Qcle_minus_iff q 1)). exact H1.
  - unfold Qcminus. rewrite <- (Qcplus_0_r 1) at 2. apply Qcplus_le_mono_l.
    by apply (Qcopp_le_compat 0 q).
Qed.

Lemma quotient_range (v total : Qc) :
  (0 ≤ v)%Qc → (v ≤ total)%Qc → (0 < total)%Qc →
  (0 ≤ v / total)%Qc ∧ (v / total ≤ 1)%Qc.
Proof.
  intros Hv Hle Hpos. unfold Qcdiv. split.
  - apply Qcmult_nonneg_nonneg; [done|]. by apply Qclt_le_weak, Qcinv_pos.
  - rewrite <- (Qcmult_inv_r total) by (by apply not_eq_sym, Qclt_not_eq).
    apply Qcmult_le_mono_nonneg_r; [|done].
    by apply Qclt_le_weak, Qcinv_pos.
Qed.

(** X9. When no volume is negative and the total volume is not zero, every
    derived weight is a number between 0 and 1: the derived weights meet,
    element by element, the bound explicit weights are checked against. *)
Theorem X9_derived_weights_in_unit_interval (apps : list App) :
  (∀ app, app ∈ apps → (0 ≤ volume app)%Qc) →
  np_sum (volume <$> apps) ≠ 0%Qc →
  ∃ ws,
    derived_weights apps = NDArray ws
    ∧ length ws = length apps
    ∧ Forall (λ w, ∃ q, w = Finite q ∧ (0 ≤ q)%Qc ∧ (q ≤ 1)%Qc
                        ∧ np_le (Finite 0) w && np_le w (Finite 1) = true)
        ws.
Proof.
  intros Hnonneg Htotal.
  assert (Hvs : Forall (λ v, 0 ≤ v)%Qc (volume <$> apps)).
  { apply Forall_fmap, Forall_forall. intros app Happ. by apply Hnonneg. }
  assert (Hpos : (0 < np_sum (volume <$> apps))%Qc).
  { destruct (Qcle_lt_or_eq _ _ (np_sum_nonneg _ Hvs)) as [?|Heq]; [done|].
    by destruct Htotal. }
  rewrite derived_weights_nonzero by done. eexists. split; [done|].
  split; [by rewrite length_fmap|].
  apply Forall_fmap, Forall_forall. intros app Happ. cbn.
  destruct (quotient_range (volume app) (np_sum (volume <$> apps)))
    as [Hq0 Hq1]; [by apply Hnonneg| |done|].
  { apply np_sum_elem_le; [done|]. apply list_elem_of_fmap. by exists app. }
  destruct (one_minus_range _ Hq0 Hq1) as [Hw0 Hw1].
  eexists. split_and!; [done..|].
  by rewrite !bool_decide_eq_true_2.
Qed.


Lemma X9_witness :
  ∃ ws,
    derived_weights [Scenario.appA; Scenario.appB] = NDArray ws
    ∧ length ws = 2%nat
    ∧ Forall (λ w, ∃ q, w = Finite q ∧ (0 ≤ q)%Qc ∧ (q ≤ 1)%Qc
                        ∧ np_le (Finite 0) w && np_le w (Finite 1) = true)
        ws.
Proof.
  apply (X9_derived_weights_in_unit_interval [Scenario.appA; Scenario.appB]).
  - intros app [->|[->|[]%elem_of_nil]%elem_of_cons]%elem_of_cons;
      vm_compute; discriminate.
  - vm_compute. discriminate.
Defined.

Lemma np_sum_one_minus (vs : list Qc) (c : Qc) :
  np_sum ((λ v, 1 - v * c)%Qc <$> vs)
  = (Qc_of_Z (Z.of_nat (length vs)) - np_sum vs * c)%Qc.
Proof.
  induction vs as [|v vs IH].
  - cbn [fmap list_fmap np_sum foldr length]. change (Z.of_nat 0) with 0%Z.
    rewrite Z2Qc_inj_0. ring.
  - cbn [fmap list_fmap np_sum foldr length]. fold (np_sum vs).
    change (foldr Qcplus 0%Qc ((λ v, 1 - v * c)%Qc <$> vs))
      with (np_sum ((λ v, 1 - v * c)%Qc <$> vs)).
    rewrite IH, Nat2Z.inj_succ, <- Z.add_1_r, Z2Qc_inj_add, Z2Qc_inj_1.
    ring.
Qed.

(** X10. When the total volume is not zero, the derived weights add up to
    the number of applications minus one; a single application therefore
    always gets weight 0. *)
Theorem X10_derived_weights_total (apps : list App) :
  np_sum (volume <$> apps) ≠ 0%Qc →
  ∃ qs,
    derived_weights apps = NDArray (Finite <$> qs)
    ∧ np_sum qs = (Qc_of_Z (Z.of_nat (length apps)) - 1)%Qc
    ∧ (∀ a, apps = [a] → qs = [0%Qc]).
Proof.
  intros Htotal.
  exists ((λ v, 1 - v * / np_sum (volume <$> apps))%Qc <$> (volume <$> apps)).
  assert (Hsum :
    np_sum ((λ v, 1 - v * / np_sum (volume <$> apps))%Qc <$> (volume <$> apps))
    = (Qc_of_Z (Z.of_nat (length apps)) - 1)%Qc).
  { rewrite np_sum_one_minus, length_fmap.
    by rewrite Qcmult_inv_r. }
  split_and!.
  - rewrite derived_weights_nonzero by done. f_equal.
    by rewrite <- !list_fmap_compose.
  - exact Hsum.
  - intros a ->. cbn in *. f_equal.
    rewrite Qcplus_0_r in Hsum. etrans; [exact Hsum|].
    change (Z.of_nat 1) with 1%Z. rewrite Z2Qc_inj_1. ring.
Qed.

Lemma X10_witness :
  ∃ qs,
    derived_weights [Scenario.appA; Scenario.appB] = NDArray (Finite <$> qs)
    ∧ np_sum qs = (Qc_of_Z 2 - 1)%Qc.
Proof.
  destruct (X10_derived_weights_total [Scenario.appA; Scenario.appB])
    as (qs & Hqs & Hsum & _).
  - vm_compute. discriminate.
  - exists qs. split; [exact Hqs|exact Hsum].
Defined.

(** X11. With a positive total volume, an application with a lower volume
    gets a higher (or equal) derived weight. *)
Theorem X11_lower_volume_higher_weight (apps : list App) (i j : nat)
    (a b : App) :
  (0 < np_sum (volume <$> apps))%Qc →
  apps !! i = Some a → apps !! j = Some b →
  (volume a ≤ volume b)%Qc →
  ∃ wa wb,
    weight_list (derived_weights apps) !! i = Some (Finite wa)
    ∧ weight_list (derived_weights apps) !! j = Some (Finite wb)
    ∧ (wb ≤ wa)%Qc.
Proof.
  intros Hpos Ha Hb Hle.
  rewrite derived_weights_nonzero by (by apply not_eq_sym, Qclt_not_eq). cbn.
  eexists _, _. rewrite !list_lookup_fmap, Ha, Hb. cbn.
  split_and!; [done..|].
  unfold Qcminus. apply Qcplus_le_mono_l, Qcopp_le_compat.
  unfold Qcdiv. apply Qcmult_le_mono_nonneg_r; [|done].
  by apply Qclt_le_weak, Qcinv_pos.
Qed.

Lemma X11_witness :
  ∃ wa wb,
    weight_list (derived_weights [Scenario.appA; Scenario.appB]) !! 0%nat
    = Some (Finite wa)
    ∧ weight_list (derived_weights [Scenario.appA; Scenario.appB]) !! 1%nat
      = Some (Finite wb)
    ∧ (wb ≤ wa)%Qc.
Proof.
  apply (X11_lower_volume_higher_weight [Scenario.appA; Scenario.appB]
           0 1 Scenario.appA Scenario.appB).
  - vm_compute. reflexivity.
  - reflexivity.
  - reflexivity.
  - vm_compute. discriminate.
Defined.


(** X12. A zero total volume is not guarded against: with well-formed
    declarations and no explicit weights, composition still completes, and
    the weights handed to the final composition step are not numbers ([nan]
    for every application when all volumes are zero). *)
Theorem X12_zero_total_volume
    (set_order resources_order : gset string → list string)
    (single_objective : list event → epoch_objs) (apps : list App)
    (topo : Topology) (network_config : option NetworkConfig)
    (epoch_mode : EpochComposition) (fairness : Fairness) (σ : state) :
  (∀ X, set_order X ≡ₚ elements X) →
  well_declared σ apps →
  np_sum (volume <$> apps) = 0%Qc →
  let run := compose_apps set_order resources_order single_objective apps
               topo network_config epoch_mode fairness None σ in
  run.1 = Ok tt
  ∧ ∃ tr objs ws,
      trace run.2
      = tr ++ [EvComposeObjectives objs epoch_mode fairness (NDArray ws)]
      ∧ length ws = length apps
      ∧ Forall (λ w, finite_value w = None) ws
      ∧ ((∀ app, app ∈ apps → volume app = 0%Qc) →
         Forall (λ w, w = NaN) ws).
Proof.
  intros Hperm Hwell Htotal run.
  assert (Hok : run.1 = Ok tt).
  { by apply (run_completes_iff set_order resources_order single_objective
                apps topo network_config epoch_mode fairness None σ Hperm). }
  split; [done|].
  destruct (completed_last_call set_order resources_order single_objective
              apps topo network_config epoch_mode fairness None σ Hok)
    as (tr & rows & w & Htr & [= <-] & _).
  fold run in Htr. exists tr, rows.
  unfold derived_weights in *. cbv zeta in *. rewrite Htotal in *.
  eexists. split_and!.
  - exact Htr.
  - by rewrite !length_fmap.
  - apply Forall_fmap, Forall_true. intros v. cbn. unfold np_div.
    rewrite decide_True by done. by repeat case_decide.
  - intros Hzero. apply Forall_fmap, Forall_fmap, Forall_forall.
    intros app Happ. cbn. unfold np_div.
    rewrite decide_True by done. by rewrite decide_True by by apply Hzero.
Qed.

Lemma X12_witness :
  (compose_apps elements elements Scenario.answers
     (idle <$> [Scenario.appA; Scenario.appB]) Scenario.topo None AVG
     WEIGHTED None Scenario.store).1 = Ok tt
  ∧ ∃ tr objs ws,
      trace (compose_apps elements elements Scenario.answers
               (idle <$> [Scenario.appA; Scenario.appB]) Scenario.topo None
               AVG WEIGHTED None Scenario.store).2
      = tr ++ [EvComposeObjectives objs AVG WEIGHTED (NDArray ws)]
      ∧ length ws = length (idle <$> [Scenario.appA; Scenario.appB])
      ∧ Forall (λ w, finite_value w = None) ws
      ∧ ((∀ app, app ∈ idle <$> [Scenario.appA; Scenario.appB] →
                 volume app = 0%Qc) →
         Forall (λ w, w = NaN) ws).
Proof.
  apply (X12_zero_total_volume elements elements Scenario.answers
           (idle <$> [Scenario.appA; Scenario.appB]) Scenario.topo None AVG
           WEIGHTED Scenario.store).
  - intros X. reflexivity.
  - apply (consume_loop_completes elements Scenario.store
             (idle <$> [Scenario.appA; Scenario.appB]) Scenario.topo);
      [intros X; reflexivity|]. vm_compute. reflexivity.
  - vm_compute. reflexivity.
Defined.

(** ** Explicit weights *)

Lemma in_range_inv (w : pyfloat) :
  np_le (Finite 0) w && np_le w (Finite 1) = true →
  ∃ q, w = Finite q ∧ (0 ≤ q)%Qc ∧ (q ≤ 1)%Qc.
Proof.
  intros [H0 H1]%andb_true_iff. destruct w as [q| | |]; try done.
  exists q. cbn in H0, H1.
  apply bool_decide_eq_true in H0. apply bool_decide_eq_true in H1. done.
Qed.

Lemma weights_in_range_true (w : pyweights) :
  weights_in_range w = Ok true
  ↔ ∃ q, (w = Scalar (Finite q) ∨ w = NDArray [Finite q])
         ∧ (0 ≤ q)%Qc ∧ (q ≤ 1)%Qc.
Proof.
  split.
  - destruct w as [x|ws].
    + cbn. intros [= Hx]. apply in_range_inv in Hx as (q & -> & ? & ?).
      exists q. split; [by left|done].
    + destruct ws as [|x [|y ws]]; cbn -[np_le]; unfold mbind, result_bind;
        cbn -[np_le]; [done| |done].
      destruct (np_le (Finite 0) x) eqn:H0; [|done]. intros [= H1].
      destruct (in_range_inv x) as (q & -> & ? & ?); [by rewrite H0, H1|].
      exists q. split; [by right|done].
  - intros (q & [->| ->] & H0 & H1); cbn; unfold mbind, result_bind; cbn;
      by rewrite !bool_decide_eq_true_2.
Qed.

(** X13. Explicit weights are accepted exactly when they are a single
    number between 0 and 1, given as a number or as an array of one
    element; a composition that completes with explicit weights hands them
    unchanged to the final composition step. *)
Theorem X13_explicit_weights
    (set_order resources_order : gset string → list string)
    (single_objective : list event → epoch_objs) (apps : list App)
    (topo : Topology) (network_config : option NetworkConfig)
    (epoch_mode : EpochComposition) (fairness : Fairness)
    (w : pyweights) (σ σ' : state) :
  compose_apps set_order resources_order single_objective apps topo
    network_config epoch_mode fairness (Some w) σ = (Ok tt, σ') →
  (∃ q, (w = Scalar (Finite q) ∨ w = NDArray [Finite q])
        ∧ (0 ≤ q)%Qc ∧ (q ≤ 1)%Qc)
  ∧ ∃ tr objs,
      trace σ' = tr ++ [EvComposeObjectives objs epoch_mode fairness w].
Proof.
  intros Hrun.
  destruct (completed_last_call set_order resources_order single_objective
              apps topo network_config epoch_mode fairness (Some w) σ)
    as (tr & rows & w' & Htr & Hw & _).
  { rewrite Hrun. reflexivity. }
  rewrite Hrun in Htr. cbn [snd] in Htr. cbn [weights_used] in Hw.
  clear Hrun.
  destruct (weights_in_range w) as [[|]|e] eqn:Hrange; try discriminate Hw.
  injection Hw as <-. split; [by apply weights_in_range_true|].
  exists tr, rows. exact Htr.
Qed.

Lemma X13_witness :
  ∃ tr objs,
    trace (Scenario.run None (Some (Scalar (Finite (Q2Qc (1 # 2)))))
             Scenario.store).2
    = tr ++ [EvComposeObjectives objs AVG WEIGHTED
               (Scalar (Finite (Q2Qc (1 # 2))))].
Proof.
  unfold Scenario.run.
  destruct (X13_explicit_weights elements elements Scenario.answers
              [Scenario.appA; Scenario.appB] Scenario.topo None AVG WEIGHTED
              (Scalar (Finite (Q2Qc (1 # 2)))) Scenario.store
              (compose_apps elements elements Scenario.answers
                 [Scenario.appA; Scenario.appB] Scenario.topo None AVG
                 WEIGHTED (Some (Scalar (Finite (Q2Qc (1 # 2)))))
                 Scenario.store).2) as [_ Hlast].
  - vm_compute. reflexivity.
  - exact Hlast.
Defined.


(** ** Edge cases *)

(** X14. With no application at all and no explicit weights, composition
    completes: the model builder is constructed with an empty path set,
    receives the capping requests, and the final composition step is called
    with an empty matrix and an empty weight vector; nothing is consumed
    and no dictionary is allocated. *)
Theorem X14_no_applications
    (set_order resources_order : gset string → list string)
    (single_objective : list event → epoch_objs) (topo : Topology)
    (network_config : option NetworkConfig) (epoch_mode : EpochComposition)
    (fairness : Fairness) (σ : state) :
  (∀ X, set_order X ≡ₚ elements X) →
  let run := compose_apps set_order resources_order single_objective []
               topo network_config epoch_mode fairness None σ in
  run.1 = Ok tt
  ∧ trace run.2
    = EvInit (nodes topo) (links topo) ∅
      :: cap_calls resources_order network_config
      ++ [EvComposeObjectives [] epoch_mode fairness (NDArray [])]
  ∧ st_dict run.2 = st_dict σ.
Proof.
  intros Hperm run. unfold run. rewrite compose_apps_run.
  unfold consume_calls. cbn [resource_names foldl].
  assert (Hnil : set_order ∅ = []).
  { apply Permutation_nil_r. rewrite (Hperm ∅). by rewrite elements_empty. }
  rewrite Hnil. cbn. rewrite app_nil_r. done.
Qed.

Lemma X14_witness :
  trace (compose_apps elements elements Scenario.answers [] Scenario.topo
           (Some Scenario.config) AVG WEIGHTED None Scenario.store).2
  = EvInit (nodes Scenario.topo) (links Scenario.topo) ∅
    :: cap_calls elements (Some Scenario.config)
    ++ [EvComposeObjectives [] AVG WEIGHTED (NDArray [])].
Proof.
  destruct (X14_no_applications elements elements Scenario.answers
              Scenario.topo (Some Scenario.config) AVG WEIGHTED
              Scenario.store) as (_ & Htr & _).
  - intros X. reflexivity.
  - exact Htr.
Defined.

Lemma capacities_unadvertised (elems : gmap element (gmap string Qc))
    (r : string) :
  (∀ e res, elems !! e = Some res → res !! r = None) →
  capacities_of elems r = ∅.
Proof.
  intros Hnone. apply map_eq. intros e. rewrite lookup_empty.
  unfold capacities_of. rewrite lookup_omap.
  destruct (elems !! e) as [res|] eqn:He; [|done]. cbn. by apply (Hnone e).
Qed.

Lemma node_caps_values (topo : Topology) (e : element)
    (res : gmap string Qc) :
  node_caps topo !! e = Some res → res = get_resources topo e.
Proof.
  unfold node_caps.
  rewrite (lookup_foldl_insert Node (get_resources topo)).
  case_decide; [|done]. by intros [= <-].
Qed.

Lemma link_caps_values (topo : Topology) (e : element)
    (res : gmap string Qc) :
  link_caps topo !! e = Some res → res = get_resources topo e.
Proof.
  unfold link_caps.
  rewrite (lookup_foldl_insert (λ l : nat * nat, Link l.1 l.2)
             (get_resources topo)).
  case_decide; [|done]. by intros [= <-].
Qed.

(** X15. A resource that applications reference but that no node and no
    link of the topology advertises is not an error: when composition
    completes, its consume call has been made with an empty capacity
    map. *)
Theorem X15_unadvertised_resource
    (set_order resources_order : gset string → list string)
    (single_objective : list event → epoch_objs) (apps : list App)
    (topo : Topology) (network_config : option NetworkConfig)
    (epoch_mode : EpochComposition) (fairness : Fairness)
    (weights : option pyweights) (σ σ' : state) (r : string) :
  (∀ X, set_order X ≡ₚ elements X) →
  compose_apps set_order resources_order single_objective apps topo
    network_config epoch_mode fairness weights σ = (Ok tt, σ') →
  (∃ app, app ∈ apps ∧ references σ app r) →
  (∀ e, get_resources topo e !! r = None) →
  ∃ mode,
    List.filter (is_consume_of r) (trace σ')
    = [EvConsume (merged_pptc σ apps) r (cost_functions σ apps r) ∅ mode].
Proof.
  intros Hperm Hrun Href Hnone.
  pose proof (trace_consume_calls set_order resources_order single_objective
                apps topo network_config epoch_mode fairness weights σ r)
    as Htrace.
  pose proof (run_Ok_consume_calls set_order resources_order single_objective
                apps topo network_config epoch_mode fairness weights σ)
    as Hcomplete.
  rewrite Hrun in Htrace, Hcomplete. cbn in Htrace, Hcomplete.
  specialize (Hcomplete eq_refl). rewrite Htrace.
  apply elem_of_resource_names in Href.
  destruct (consume_calls_complete set_order Hperm σ apps topo r Hcomplete
              Href) as (ev & Hev & ->).
  apply consume_call_Ok in Hev as (mode & _ & _ & Hmode).
  rewrite resource_entries_fst in Hmode. exists mode.
  destruct Hmode as [[-> ->]|[-> ->]]; do 2 f_equal;
    apply capacities_unadvertised; intros e res Hres.
  - apply node_caps_values in Hres as ->. apply Hnone.
  - apply link_caps_values in Hres as ->. apply Hnone.
Qed.

Lemma X15_witness :
  ∃ mode,
    List.filter (is_consume_of "disk")
      (trace (Scenario.run None None store_unadvertised).2)
    = [EvConsume (merged_pptc store_unadvertised
                    [Scenario.appA; Scenario.appB])
         "disk"
         (cost_functions store_unadvertised [Scenario.appA; Scenario.appB]
            "disk")
         ∅ mode].
Proof.
  unfold Scenario.run.
  apply (X15_unadvertised_resource elements elements Scenario.answers
           [Scenario.appA; Scenario.appB] Scenario.topo None AVG WEIGHTED
           None store_unadvertised).
  - intros X. reflexivity.
  - vm_compute. reflexivity.
  - exists Scenario.appA. split; [left|vm_compute; eexists; reflexivity].
  - intros [[|[|[|n]]]|u v]; vm_compute; reflexivity.
Defined.
